(** * Mementiq repair scripts: a shallow embedding and its properties

    The repository holds three one-shot scripts that patch a generated
    TypeScript file:

    - [fix_all_syntax.py]     line by line, regular expressions;
    - [fix_empty_logs.py]     line by line, [str.replace], in-place list update;
    - [fix_json_stringify.py] whole content, [re.sub] with a callback.

    Each script is [load; transform; save].  Only the transform is modelled:
    a function from the text read to the text written.  Text is a list of
    8-bit characters; [str.lower] therefore acts on [A]-[Z] only. *)

From Stdlib Require Import Ascii String Bool Arith Lia.
From stdpp Require Import base list.

(** ** Text *)

Definition str : Type := list ascii.

Definition chars (x : string) : str := list_ascii_of_string x.
Arguments chars x%_string.

Definition nl : ascii := "010"%char.
Definition dquote : ascii := "034"%char.

(** [s.startswith(p)] *)
Fixpoint is_prefix (p s : str) : bool :=
  match p, s with
  | [], _ => true
  | _ :: _, [] => false
  | a :: p', b :: s' => Ascii.eqb a b && is_prefix p' s'
  end.

(** [sub in s] *)
Fixpoint contains (sub s : str) : bool :=
  is_prefix sub s ||
  match s with
  | [] => false
  | _ :: s' => contains sub s'
  end.

(** [s.replace(old, new)] for a non-empty [old]: the occurrences are taken
    left to right and do not overlap.  [skip] counts the characters of the
    occurrence just replaced that are still to be dropped. *)
Fixpoint replace_from (old new : str) (skip : nat) (s : str) : str :=
  match s with
  | [] => []
  | c :: s' =>
      match skip with
      | S k => replace_from old new k s'
      | O =>
          if is_prefix old s
          then new ++ replace_from old new (length old - 1) s'
          else c :: replace_from old new 0 s'
      end
  end.

Definition replace (old new s : str) : str := replace_from old new 0 s.

Definition lower_char (c : ascii) : ascii :=
  let n := nat_of_ascii c in
  if (65 <=? n) && (n <=? 90) then ascii_of_nat (n + 32) else c.

(** [s.lower()] *)
Definition lower (s : str) : str := map lower_char s.

(** [s.split(sep)] for a one-character separator *)
Fixpoint split (sep : ascii) (s : str) : list str :=
  match s with
  | [] => [[]]
  | c :: s' =>
      if Ascii.eqb c sep then [] :: split sep s'
      else match split sep s' with
           | l :: ls => (c :: l) :: ls
           | [] => [[c]]
           end
  end.

(** [sep.join(ls)] *)
Fixpoint join (sep : str) (ls : list str) : str :=
  match ls with
  | [] => []
  | l :: ls' =>
      match ls' with
      | [] => l
      | _ :: _ => l ++ sep ++ join sep ls'
      end
  end.

(** [f.readlines()]: every line keeps its terminating newline *)
Fixpoint readlines (s : str) : list str :=
  match s with
  | [] => []
  | c :: s' =>
      if Ascii.eqb c nl then [c] :: readlines s'
      else match readlines s' with
           | l :: ls => (c :: l) :: ls
           | [] => [[c]]
           end
  end.

(** [f.writelines(ls)] *)
Definition writelines (ls : list str) : str := concat ls.

(** Number of newline-separated lines of a text. *)
Definition line_count (s : str) : nat := length (split nl s).

(** ** Regular expressions

    The nine patterns of the scripts are sequences of escaped literal
    characters, greedy negated classes [[^c]*] and capturing groups
    [([^c]+)].  A pattern is the list of these items in order. *)

Inductive item : Type :=
  | Chr (c : ascii)      (* a literal character *)
  | NotStar (c : ascii)  (* [^c]*   *)
  | Group (c : ascii).   (* ([^c]+) *)

Definition regex : Type := list item.

Definition lit (x : string) : regex := map Chr (chars x).
Arguments lit x%_string.

(** A match object: [m.group(0)], the captured groups, and the text that
    follows the match. *)
Record mtch : Type := Mtch { m_text : str; m_groups : list str; m_rest : str }.

Definition m_cons (c : ascii) (m : mtch) : mtch :=
  Mtch (c :: m_text m) (m_groups m) (m_rest m).

Definition m_capture (run : str) (m : mtch) : mtch :=
  Mtch (run ++ m_text m) (run :: m_groups m) (m_rest m).

Definition m_skip (run : str) (m : mtch) : mtch :=
  Mtch (run ++ m_text m) (m_groups m) (m_rest m).

(** [m.group(n)] for [n >= 1] *)
Definition group (n : nat) (m : mtch) : str := nth (n - 1) (m_groups m) [].

(** Greedy [[^c]*] followed by the continuation [k]: one more character is
    taken first; when the rest then fails, the run stops here. The run
    consumed is returned with the result. *)
Fixpoint star (c : ascii) (k : str -> option mtch) (s : str) : option (str * mtch) :=
  match s with
  | [] => option_map (pair []) (k [])
  | x :: s' =>
      if Ascii.eqb x c then option_map (pair []) (k s)
      else match star c k s' with
           | Some (run, m) => Some (x :: run, m)
           | None => option_map (pair []) (k s)
           end
  end.

(** Greedy [[^c]+]. *)
Definition plus (c : ascii) (k : str -> option mtch) (s : str) : option (str * mtch) :=
  match s with
  | [] => None
  | x :: s' =>
      if Ascii.eqb x c then None
      else match star c k s' with
           | Some (run, m) => Some (x :: run, m)
           | None => None
           end
  end.

(** [re.match]: the pattern anchored at the start of [s], by backtracking. *)
Fixpoint match_here (p : regex) (s : str) : option mtch :=
  match p with
  | [] => Some (Mtch [] [] s)
  | Chr c :: p' =>
      match s with
      | x :: s' => if Ascii.eqb x c then option_map (m_cons x) (match_here p' s') else None
      | [] => None
      end
  | NotStar c :: p' =>
      option_map (fun rm => m_skip (fst rm) (snd rm)) (star c (match_here p') s)
  | Group c :: p' =>
      option_map (fun rm => m_capture (fst rm) (snd rm)) (plus c (match_here p') s)
  end.

(** [re.search]: the leftmost match; the text before it is returned too. *)
Fixpoint search (p : regex) (s : str) : option (str * mtch) :=
  match match_here p s with
  | Some m => Some ([], m)
  | None =>
      match s with
      | [] => None
      | x :: s' => option_map (fun pm => (x :: fst pm, snd pm)) (search p s')
      end
  end.

(** [re.sub(p, repl, s)] where [repl] is a function of the match object.
    Every pattern of the scripts starts with a literal character, so a match
    is never empty; [skip] drops the rest of a match just replaced. *)
Fixpoint sub_from (p : regex) (repl : mtch -> str) (skip : nat) (s : str) : str :=
  match s with
  | [] => []
  | x :: s' =>
      match skip with
      | S k => sub_from p repl k s'
      | O =>
          match match_here p s with
          | Some m =>
              match m_text m with
              | [] => repl m ++ x :: sub_from p repl 0 s'
              | _ :: t => repl m ++ sub_from p repl (length t) s'
              end
          | None => x :: sub_from p repl 0 s'
          end
      end
  end.

Definition re_sub (p : regex) (repl : mtch -> str) (s : str) : str :=
  sub_from p repl 0 s.

(** ** fix_all_syntax.py *)

Module FixAllSyntax.

(** console\.log\(`\$\{JSON\.stringify\(`([^`]+)`\)\} \$\{JSON\.stringify\(([^)]+)\)\}`\); *)
Definition re_double : regex :=
  lit "console.log(`${JSON.stringify(`" ++ [Group "`"] ++
  lit "`)} ${JSON.stringify(" ++ [Group ")"] ++ lit ")}`);".

(** console\.log\(`\$\{JSON\.stringify\(`([^`]+)`\)\}`\); *)
Definition re_single : regex :=
  lit "console.log(`${JSON.stringify(`" ++ [Group "`"] ++ lit "`)}`);".

(** \$\{JSON\.stringify\(`([^`]+)`\)\} *)
Definition re_strip_literal : regex :=
  lit "${JSON.stringify(`" ++ [Group "`"] ++ lit "`)}".

(** \$\{JSON\.stringify\(([^)]+)\)\} *)
Definition re_strip_expr : regex :=
  lit "${JSON.stringify(" ++ [Group ")"] ++ lit ")}".

(** The [if 'console.log(`${JSON.stringify(' in line:] block. *)
Definition fix_wrapped (line : str) : str :=
  if contains (chars "console.log(`${JSON.stringify(") line then
    if contains (chars ")} ${JSON.stringify(") line then
      match search re_double line with
      | Some (_, m) =>
          let text1 := group 1 m in
          let text2 := replace (chars "`") [] (replace (chars "`)}") [] (group 2 m)) in
          chars "      console.log(`" ++ text1 ++ chars " " ++ text2 ++ chars "`);"
      | None => line
      end
    else
      match search re_single line with
      | Some (_, m) =>
          let text := group 1 m in
          chars "      console.log(`" ++ text ++ chars "`);"
      | None => line
      end
  else line.

(** One iteration of the loop over the lines. *)
Definition fix_line (line : str) : str :=
  let line := fix_wrapped line in
  let line := re_sub re_strip_literal (group 1) line in
  let line := re_sub re_strip_expr (group 1) line in
  line.

(** The text written back, as a function of the text read. *)
Definition transform (content : str) : str :=
  let lines := split nl content in
  let fixed_lines := map fix_line lines in
  join [nl] fixed_lines.

End FixAllSyntax.

(** ** fix_empty_logs.py *)

Module FixEmptyLogs.

Definition empty_log : str := chars "console.log()".

Definition log_of (msg : string) : str :=
  chars "console.log(" ++ [dquote] ++ chars msg ++ [dquote] ++ chars ")".

Definition log_success : str := log_of "Operation completed successfully".
Definition log_error : str := log_of "Error logged".
Definition log_processing : str := log_of "Processing...".

Definition has_success_word (prev_line : str) : bool :=
  contains (chars "Found") prev_line || contains (chars "Created") prev_line
  || contains (chars "Updated") prev_line.

Definition has_error_word (prev_line : str) : bool :=
  contains (chars "error") (lower prev_line) || contains (chars "fail") (lower prev_line).

(** The body of the loop at index [i], on the list as it stands: the
    assignment [lines[i] = ...] updates the list that [lines[i-1]] is
    later read from. *)
Definition loop_body (i : nat) (lines : list str) : list str :=
  match lines !! i with
  | None => lines
  | Some line =>
      if contains empty_log line then
        if 0 <? i then
          match lines !! (i - 1) with
          | None => lines
          | Some prev_line =>
              if has_success_word prev_line then
                <[i := replace empty_log log_success line]> lines
              else if has_error_word prev_line then
                <[i := replace empty_log log_error line]> lines
              else
                <[i := replace empty_log log_processing line]> lines
          end
        else <[i := replace empty_log log_processing line]> lines
      else lines
  end.

(** [for i, line in enumerate(lines)]: [n] iterations from index [i]. *)
Fixpoint loop (n i : nat) (lines : list str) : list str :=
  match n with
  | O => lines
  | S n' => loop n' (S i) (loop_body i lines)
  end.

Definition fix_lines (lines : list str) : list str := loop (length lines) 0 lines.

(** The text written back, as a function of the text read. *)
Definition transform (content : str) : str :=
  writelines (fix_lines (readlines content)).

End FixEmptyLogs.

(** ** fix_json_stringify.py *)

Module FixJsonStringify.

(** console\.log\(`\$\{JSON\.stringify\([^)]*\)\}[^`]*`\); *)
Definition pattern : regex :=
  lit "console.log(`${JSON.stringify(" ++ [NotStar ")"] ++ lit ")}" ++
  [NotStar "`"] ++ lit "`);".

(** `([^`]+)`\)\}[^`]*` *)
Definition re_remaining : regex :=
  lit "`" ++ [Group "`"] ++ lit "`)}" ++ [NotStar "`"] ++ lit "`".

Definition fix_console_log (m : mtch) : str :=
  let text := m_text m in
  let text := re_sub (lit "${JSON.stringify(") (fun _ => []) text in
  let text := re_sub (lit ")}") (fun _ => []) text in
  let text := re_sub re_remaining (fun m => chars "`" ++ group 1 m ++ chars "`") text in
  text.

(** console\.log\(`\$\{JSON\.stringify\(`([^`]+)`\)\} \$\{JSON\.stringify\(([^)]+)\)`\)\}`\); *)
Definition re_specific : regex :=
  lit "console.log(`${JSON.stringify(`" ++ [Group "`"] ++
  lit "`)} ${JSON.stringify(" ++ [Group ")"] ++ lit ")`)}`);".

(** The text written back, as a function of the text read. *)
Definition transform (content : str) : str :=
  let fixed_content := re_sub pattern fix_console_log content in
  let fixed_content :=
    re_sub re_specific
      (fun m => chars "console.log(`" ++ group 1 m ++ chars " " ++ group 2 m ++ chars "`);")
      fixed_content in
  fixed_content.

End FixJsonStringify.

(** ** Auxiliary notions used by the proofs *)

(** Membership of a character, as a test. *)
Definition mem (c : ascii) (s : str) : bool := existsb (Ascii.eqb c) s.

(** Two texts agree when one is a prefix of the other. *)
Definition agree (a b : str) : bool := is_prefix a b || is_prefix b a.

(** [overlaps w t]: an occurrence of [w] can start inside [t] once [t] is
    followed by some text, that is, [w] agrees with a non-empty suffix
    of [t]. *)
Fixpoint overlaps (w t : str) : bool :=
  match t with
  | [] => false
  | _ :: t' => agree w t || overlaps w t'
  end.

Fixpoint count_char (c : ascii) (s : str) : nat :=
  match s with
  | [] => 0
  | x :: s' => (if Ascii.eqb x c then 1 else 0) + count_char c s'
  end.

Definition no_char (c : ascii) (s : str) : Prop := Forall (fun x => x <> c) s.

(** What [readlines] returns: newline-terminated lines, the last of which
    may lack its newline. *)
Inductive lines_wf : list str -> Prop :=
  | lines_wf_nil : lines_wf []
  | lines_wf_last body : body <> [] -> no_char nl body -> lines_wf [body]
  | lines_wf_cons body ls :
      no_char nl body -> lines_wf ls -> lines_wf ((body ++ [nl]) :: ls).

(** The loop of [fix_empty_logs.py] read as a recursion over the lines:
    the statement written in place of an empty call is chosen from the line
    before it, as that line stands when the loop reaches the call. *)
Definition message_after (prev : option str) : str :=
  match prev with
  | None => FixEmptyLogs.log_processing
  | Some prev_line =>
      if FixEmptyLogs.has_success_word prev_line then FixEmptyLogs.log_success
      else if FixEmptyLogs.has_error_word prev_line then FixEmptyLogs.log_error
      else FixEmptyLogs.log_processing
  end.

Definition repair_line (prev : option str) (line : str) : str :=
  if contains FixEmptyLogs.empty_log line
  then replace FixEmptyLogs.empty_log (message_after prev) line
  else line.

Fixpoint repair_after (prev : option str) (lines : list str) : list str :=
  match lines with
  | [] => []
  | line :: rest =>
      let fixed := repair_line prev line in
      fixed :: repair_after (Some fixed) rest
  end.

(** The shapes of statements the claims speak of. *)

(** console.log(`${JSON.stringify(`L`)} ${JSON.stringify(E)}`); *)
Definition double_wrapped (L E : str) : str :=
  chars "console.log(`${JSON.stringify(`" ++ L ++
  chars "`)} ${JSON.stringify(" ++ E ++ chars ")}`);".

(** console.log(`${JSON.stringify(`T`)}`); *)
Definition single_wrapped (T : str) : str :=
  chars "console.log(`${JSON.stringify(`" ++ T ++ chars "`)}`);".

(** console.log(`body`); *)
Definition flat_log (body : str) : str :=
  chars "console.log(`" ++ body ++ chars "`);".

(** Six spaces. *)
Definition indent : str := chars "      ".

(** The opening of a wrapped fragment. *)
Definition wrap_open : str := chars "${JSON.stringify(".

(** What [fix_all_syntax.py] does to the expression text it captured. *)
Definition strip_ticks (E : str) : str :=
  replace (chars "`") [] (replace (chars "`)}") [] E).

(** ${JSON.stringify(`T`)} *)
Definition wrapped_literal (T : str) : str :=
  wrap_open ++ chars "`" ++ T ++ chars "`)}".

(** ${JSON.stringify(E)} *)
Definition wrapped_expr (E : str) : str :=
  wrap_open ++ E ++ chars ")}".

(** * Properties *)

(** ** Text *)

Lemma is_prefix_spec p s : is_prefix p s = true <-> exists r, s = p ++ r.
Proof.
  revert s; induction p as [|a p IH]; intros s; simpl.
  - split; eauto.
  - destruct s as [|b s]; simpl.
    + split; [discriminate | intros [r Hr]; discriminate].
    + rewrite andb_true_iff, Ascii.eqb_eq, IH. split.
      * intros [-> [r ->]]. eauto.
      * intros [r Hr]. injection Hr as -> ->. eauto.
Qed.

Lemma is_prefix_app p r : is_prefix p (p ++ r) = true.
Proof. apply is_prefix_spec. eauto. Qed.

Lemma contains_prefix w s : is_prefix w s = true -> contains w s = true.
Proof. intros H. destruct s; simpl in *; rewrite H; reflexivity. Qed.

Lemma contains_cons w x s : contains w s = true -> contains w (x :: s) = true.
Proof. intros H. simpl. rewrite H. apply orb_true_r. Qed.

Lemma contains_app_r w a s : contains w s = true -> contains w (a ++ s) = true.
Proof. intros H. induction a; simpl app; [assumption | now apply contains_cons]. Qed.

Lemma contains_cons_inv w x s :
  contains w (x :: s) = true -> is_prefix w (x :: s) = true \/ contains w s = true.
Proof. cbn [contains]. intros H. apply orb_true_iff in H. exact H. Qed.

Lemma contains_spec w s : contains w s = true <-> exists a b, s = a ++ w ++ b.
Proof.
  split.
  - induction s as [|x s IH].
    + simpl. rewrite orb_false_r. intros H. apply is_prefix_spec in H as [r ->].
      exists [], r. reflexivity.
    + intros H. apply contains_cons_inv in H as [H|H].
      * apply is_prefix_spec in H as [r ->]. exists [], r. reflexivity.
      * destruct (IH H) as (a & b & ->). exists (x :: a), b. reflexivity.
  - intros (a & b & ->). apply contains_app_r, contains_prefix, is_prefix_app.
Qed.

Lemma contains_app_l w s b : contains w s = true -> contains w (s ++ b) = true.
Proof.
  rewrite !contains_spec. intros (a & c & ->). exists a, (c ++ b).
  now rewrite <- !app_assoc.
Qed.

Lemma mem_false_iff c s : mem c s = false <-> no_char c s.
Proof.
  unfold mem, no_char. induction s as [|x s IH]; simpl.
  - split; [constructor | reflexivity].
  - rewrite orb_false_iff, IH, Ascii.eqb_neq. split.
    + intros [H1 H2]. constructor; [congruence | assumption].
    + intros H. inversion H; subst. split; [congruence | assumption].
Qed.

Lemma is_prefix_agree w t b : is_prefix w (t ++ b) = true -> agree w t = true.
Proof.
  unfold agree. revert t; induction w as [|k w IH]; intros t H; [reflexivity|].
  destruct t as [|x t]; [apply orb_true_r|]. simpl in *.
  apply andb_true_iff in H as [Hk H]. rewrite Hk. simpl.
  apply Ascii.eqb_eq in Hk as ->. rewrite Ascii.eqb_refl. simpl. now apply IH.
Qed.

(** An occurrence of [w] in [a ++ b] starts inside [a] or lies in [b]. *)
Lemma contains_app_inv w a b :
  contains w (a ++ b) = true -> overlaps w a = true \/ contains w b = true.
Proof.
  induction a as [|x a IH]; intros H; [now right|].
  simpl app in H. apply contains_cons_inv in H as [H|H].
  - left. cbn [overlaps]. change (x :: a ++ b) with ((x :: a) ++ b) in H.
    now rewrite (is_prefix_agree _ _ _ H).
  - destruct (IH H) as [H'|H']; [left | now right].
    cbn [overlaps]. rewrite H'. apply orb_true_r.
Qed.

Lemma is_prefix_snoc old s c :
  mem c old = false -> is_prefix old (s ++ [c]) = is_prefix old s.
Proof.
  revert s; induction old as [|a old IH]; intros s H; [reflexivity|].
  simpl in H. apply orb_false_iff in H as [Ha H].
  destruct s as [|x s]; simpl.
  - rewrite Ascii.eqb_sym, Ha. reflexivity.
  - now rewrite IH.
Qed.

(** ** [str.replace] *)

Section Replace.
Variables (o : ascii) (old' new : str).
Let old : str := o :: old'.

Lemma replace_from_skip a rest :
  replace_from old new (length a) (a ++ rest) = replace old new rest.
Proof. induction a; simpl; [reflexivity | assumption]. Qed.

Lemma replace_match rest :
  replace old new (old ++ rest) = new ++ replace old new rest.
Proof.
  unfold replace at 1. cbn [replace_from app old].
  change (o :: old' ++ rest) with (old ++ rest). rewrite is_prefix_app.
  f_equal. assert (length old - 1 = length old') as -> by (unfold old; simpl; lia).
  apply replace_from_skip.
Qed.

Lemma replace_nomatch x s :
  is_prefix old (x :: s) = false -> replace old new (x :: s) = x :: replace old new s.
Proof. intros H. unfold replace. cbn [replace_from]. now rewrite H. Qed.

(** Induction along the scan of [replace]. *)
Lemma replace_ind (P : list ascii -> Prop) :
  P [] ->
  (forall rest, P rest -> P (old ++ rest)) ->
  (forall x s, is_prefix old (x :: s) = false -> P s -> P (x :: s)) ->
  forall s : list ascii, P s.
Proof.
  intros Hnil Hm Hn s. remember (length s) as n eqn:Hlen.
  revert s Hlen. induction n as [n IH] using lt_wf_ind. intros s ->.
  destruct s as [|x s]; [assumption|].
  destruct (is_prefix old (x :: s)) eqn:E.
  - apply is_prefix_spec in E as [r E]. rewrite E. apply Hm.
    apply (IH (length r)); [|reflexivity].
    rewrite E. rewrite length_app. unfold old. simpl. lia.
  - apply Hn; [assumption|]. apply (IH (length s)); [simpl; lia | reflexivity].
Qed.

Lemma replace_absent s : contains old s = false -> replace old new s = s.
Proof.
  induction s as [|x s IH]; intros H; [reflexivity|].
  cbn [contains] in H. apply orb_false_iff in H as [H1 H2].
  rewrite replace_nomatch by assumption. now rewrite IH.
Qed.

Lemma replace_snoc c s :
  mem c old = false -> replace old new (s ++ [c]) = replace old new s ++ [c].
Proof.
  intros Hc. induction s as [|rest IH|x s E IH] using replace_ind.
  - simpl app. rewrite replace_nomatch; [reflexivity|].
    change [c] with ([] ++ [c]). now rewrite is_prefix_snoc.
  - rewrite <- app_assoc, !replace_match, IH. now rewrite app_assoc.
  - simpl app. rewrite !replace_nomatch; [now rewrite IH | assumption |].
    change (x :: s ++ [c]) with ((x :: s) ++ [c]). now rewrite is_prefix_snoc.
Qed.

Lemma replace_Forall (Q : ascii -> Prop) s :
  Forall Q new -> Forall Q s -> Forall Q (replace old new s).
Proof.
  intros Hnew. induction s as [|rest IH|x s E IH] using replace_ind; intros H.
  - constructor.
  - rewrite replace_match. apply Forall_app in H as [_ H].
    apply Forall_app. split; [assumption | now apply IH].
  - rewrite replace_nomatch by assumption. inversion H; subst.
    constructor; [assumption | now apply IH].
Qed.

End Replace.

(** How [replace] treats the occurrences of a word [w], read through a
    character map [f] (the identity, or [lower_char]). *)
Section ReplaceWords.
Variables (f : ascii -> ascii) (o : ascii) (old' : str).
Let old : str := o :: old'.

(** A word that starts here survives when no occurrence of [old] can start
    inside it. *)
Lemma replace_keeps_prefix new w s :
  mem (f o) w = false ->
  is_prefix w (map f s) = true ->
  is_prefix w (map f (replace old new s)) = true.
Proof.
  revert s; induction w as [|k w IH]; intros s Hw H; [reflexivity|].
  destruct s as [|x s]; [discriminate|].
  cbn [map is_prefix] in H. apply andb_true_iff in H as [Hk H].
  cbn [mem existsb] in Hw. apply orb_false_iff in Hw as [Hok Hw].
  assert (E : is_prefix old (x :: s) = false).
  { unfold old. cbn [is_prefix]. destruct (Ascii.eqb_spec o x) as [->|]; [|reflexivity].
    apply Ascii.eqb_eq in Hk. subst k. now rewrite Ascii.eqb_refl in Hok. }
  unfold old in *. rewrite replace_nomatch by assumption.
  cbn [map is_prefix]. rewrite Hk. now apply IH.
Qed.

(** Occurrences of [w] are kept: none of them can touch an occurrence of
    [old]. *)
Lemma replace_keeps_word new w s :
  overlaps w (map f old) = false ->
  mem (f o) w = false ->
  contains w (map f s) = true ->
  contains w (map f (replace old new s)) = true.
Proof.
  intros Hov Hw. induction s as [|rest IH|x s E IH] using (replace_ind o old'); intros H.
  - assumption.
  - fold old in H |- *. unfold old at 1. rewrite replace_match. fold old.
    rewrite map_app in *. apply contains_app_r, IH.
    apply contains_app_inv in H as [H|H]; [congruence | assumption].
  - cbn [map] in H. apply contains_cons_inv in H as [H|H].
    + apply contains_prefix. now apply replace_keeps_prefix.
    + fold old in E. unfold old in *. rewrite replace_nomatch by assumption.
      cbn [map]. now apply contains_cons, IH.
Qed.

Variables (n : ascii) (new' : str).
Let new : str := n :: new'.

(** A word found at the head of the result, past a character that was
    copied, was already there. *)
Lemma replace_prefix_inv w s :
  mem (f n) w = false ->
  is_prefix w (map f (replace old new s)) = true ->
  is_prefix w (map f s) = true.
Proof.
  revert s; induction w as [|k w IH]; intros s Hw H; [reflexivity|].
  cbn [mem existsb] in Hw. apply orb_false_iff in Hw as [Hnk Hw].
  destruct s as [|x s]; [discriminate|].
  destruct (is_prefix old (x :: s)) eqn:E.
  - apply is_prefix_spec in E as [r E]. rewrite E in H. unfold old, new in H.
    rewrite replace_match in H. cbn [app map is_prefix] in H.
    apply andb_true_iff in H as [H _]. rewrite Ascii.eqb_sym, Hnk in H. discriminate.
  - unfold old, new in *. rewrite replace_nomatch in H by assumption.
    cbn [map is_prefix] in *. apply andb_true_iff in H as [Hk H].
    rewrite Hk. now apply IH.
Qed.

(** No occurrence of [w] is created. *)
Lemma replace_no_new_word w s :
  overlaps w (map f new) = false ->
  mem (f n) (tail w) = false ->
  contains w (map f (replace old new s)) = true ->
  contains w (map f s) = true.
Proof.
  intros Hov Hw. induction s as [|rest IH|x s E IH] using (replace_ind o old'); intros H.
  - assumption.
  - fold old in H |- *. unfold old at 1 in H. rewrite replace_match in H. fold old in H.
    rewrite map_app in *. apply contains_app_r, IH.
    apply contains_app_inv in H as [H|H]; [congruence | assumption].
  - fold old in E. unfold old in H. rewrite replace_nomatch in H by assumption. fold old in H.
    cbn [map] in *. apply contains_cons_inv in H as [H|H].
    + apply contains_prefix. destruct w as [|k w]; [reflexivity|].
      cbn [is_prefix] in *. apply andb_true_iff in H as [Hk H]. rewrite Hk.
      now apply replace_prefix_inv.
    + now apply contains_cons, IH.
Qed.

End ReplaceWords.

(** After [replace], no occurrence of [old] is left, provided the
    replacement cannot complete one. *)
Lemma replace_clears o old' n new' s :
  overlaps (o :: old') (n :: new') = false ->
  mem n old' = false ->
  contains (o :: old') (replace (o :: old') (n :: new') s) = false.
Proof.
  intros Hov Hn. induction s as [|rest IH|x s E IH] using (replace_ind o old').
  - reflexivity.
  - rewrite replace_match.
    destruct (contains (o :: old') ((n :: new') ++ _)) eqn:H; [|reflexivity].
    apply contains_app_inv in H as [H|H]; congruence.
  - rewrite replace_nomatch by assumption. cbn [contains]. rewrite IH, orb_false_r.
    destruct (is_prefix (o :: old') (x :: replace _ _ s)) eqn:H; [|reflexivity].
    cbn [is_prefix] in H, E. apply andb_true_iff in H as [Hx H]. rewrite Hx in E.
    rewrite <- (map_id (replace _ _ s)) in H.
    apply (replace_prefix_inv (fun c => c)) in H; [|assumption].
    rewrite map_id in H. simpl in E. congruence.
Qed.

Lemma count_char_app c a b : count_char c (a ++ b) = count_char c a + count_char c b.
Proof. induction a as [|x a IH]; simpl; [reflexivity | rewrite IH; lia]. Qed.

Lemma count_char_none c s : no_char c s -> count_char c s = 0.
Proof.
  induction 1 as [|x s Hx _ IH]; simpl; [reflexivity|].
  apply Ascii.eqb_neq in Hx. now rewrite Hx.
Qed.

Lemma replace_count_char c o old' new s :
  mem c (o :: old') = false -> no_char c new ->
  count_char c (replace (o :: old') new s) = count_char c s.
Proof.
  intros Ho Hn. apply mem_false_iff in Ho.
  induction s as [|rest IH|x s E IH] using (replace_ind o old').
  - reflexivity.
  - rewrite replace_match, !count_char_app, IH.
    now rewrite (count_char_none c new), (count_char_none c (o :: old')).
  - rewrite replace_nomatch by assumption. simpl. now rewrite IH.
Qed.

(** ** [split], [join], [readlines] *)

Lemma split_none c l : no_char c l -> split c l = [l].
Proof.
  induction 1 as [|x l Hx _ IH]; [reflexivity|].
  cbn [split]. apply Ascii.eqb_neq in Hx. now rewrite Hx, IH.
Qed.

Lemma split_app_sep c l rest :
  no_char c l -> split c (l ++ c :: rest) = l :: split c rest.
Proof.
  induction 1 as [|x l Hx _ IH]; cbn [split app].
  - now rewrite Ascii.eqb_refl.
  - apply Ascii.eqb_neq in Hx. now rewrite Hx, IH.
Qed.

Lemma split_join c ls :
  ls <> [] -> Forall (no_char c) ls -> split c (join [c] ls) = ls.
Proof.
  intros Hne H. induction H as [|l ls Hl Hls IH]; [congruence|].
  destruct ls as [|l2 ls].
  - apply split_none, Hl.
  - cbn [join]. cbn [app]. rewrite split_app_sep by assumption.
    f_equal. now apply IH.
Qed.

Lemma split_not_nil c s : split c s <> [].
Proof.
  destruct s as [|x s]; cbn [split]; [discriminate|].
  destruct (Ascii.eqb x c); [discriminate|]. destruct (split c s); discriminate.
Qed.

Lemma split_no_char c s : Forall (no_char c) (split c s).
Proof.
  induction s as [|x s IH]; cbn [split].
  - repeat constructor.
  - destruct (Ascii.eqb_spec x c) as [->|Hx].
    + constructor; [constructor | assumption].
    + destruct (split c s) as [|l ls]; [repeat constructor; assumption|].
      inversion IH; subst. constructor; [constructor|]; assumption.
Qed.

Lemma length_split c s : length (split c s) = S (count_char c s).
Proof.
  induction s as [|x s IH]; cbn [split count_char]; [reflexivity|].
  destruct (Ascii.eqb x c); cbn [length]; [now rewrite IH|].
  destruct (split c s); cbn [length] in *; lia.
Qed.

Lemma lookup_map {A B} (g : A -> B) (l : list A) i : map g l !! i = g <$> l !! i.
Proof. revert i; induction l as [|a l IH]; intros [|i]; simpl; auto. Qed.

Lemma concat_readlines s : concat (readlines s) = s.
Proof.
  induction s as [|x s IH]; cbn [readlines]; [reflexivity|].
  destruct (Ascii.eqb x nl).
  - cbn [concat app]. now rewrite IH.
  - destruct (readlines s) as [|l ls]; cbn [concat app] in *; now rewrite <- IH.
Qed.

Lemma readlines_wf s : lines_wf (readlines s).
Proof.
  induction s as [|x s IH]; cbn [readlines]; [constructor|].
  destruct (Ascii.eqb_spec x nl) as [->|Hx].
  - apply (lines_wf_cons []); [constructor | assumption].
  - destruct (readlines s) as [|l ls].
    + apply lines_wf_last; [discriminate | repeat constructor; assumption].
    + inversion IH; subst.
      * apply lines_wf_last; [discriminate | constructor; assumption].
      * apply (lines_wf_cons (x :: body)); [constructor|]; assumption.
Qed.

Lemma readlines_body body : body <> [] -> no_char nl body -> readlines body = [body].
Proof.
  intros Hne H. induction H as [|x l Hx Hl IH]; [congruence|].
  cbn [readlines]. apply Ascii.eqb_neq in Hx. rewrite Hx.
  destruct l as [|y l]; [reflexivity|]. now rewrite IH.
Qed.

Lemma readlines_line body rest :
  no_char nl body -> readlines (body ++ nl :: rest) = (body ++ [nl]) :: readlines rest.
Proof.
  induction 1 as [|x l Hx _ IH]; cbn [readlines app].
  - reflexivity.
  - apply Ascii.eqb_neq in Hx. now rewrite Hx, IH.
Qed.

Lemma readlines_concat ls : lines_wf ls -> readlines (concat ls) = ls.
Proof.
  induction 1 as [|body Hne Hb|body ls Hb _ IH]; cbn [concat].
  - reflexivity.
  - rewrite app_nil_r. now apply readlines_body.
  - rewrite <- app_assoc. cbn [app]. now rewrite readlines_line, IH.
Qed.

(** ** The matcher *)

Lemma star_inv c k s run m :
  star c k s = Some (run, m) ->
  exists s', s = run ++ s' /\ k s' = Some m /\ no_char c run.
Proof.
  revert run; induction s as [|x s IH]; intros run; cbn [star].
  - destruct (k []) eqn:E; [|discriminate]. intros [= <- <-].
    exists []. repeat split; [assumption | constructor].
  - assert (Hstop : option_map (pair []) (k (x :: s)) = Some (run, m) ->
                    exists s', x :: s = run ++ s' /\ k s' = Some m /\ no_char c run).
    { destruct (k (x :: s)) eqn:E; [|discriminate]. intros [= <- <-].
      exists (x :: s). repeat split; [assumption | constructor]. }
    destruct (Ascii.eqb_spec x c) as [->|Hx]; [assumption|].
    destruct (star c k s) as [[run' m']|] eqn:E; [|assumption].
    intros [= <- <-]. destruct (IH _ eq_refl) as (s' & -> & Hk & Hrun).
    exists s'. repeat split; [assumption | constructor; assumption].
Qed.

Lemma plus_inv c k s run m :
  plus c k s = Some (run, m) ->
  exists s', s = run ++ s' /\ k s' = Some m /\ no_char c run /\ run <> [].
Proof.
  destruct s as [|x s]; cbn [plus]; [discriminate|].
  destruct (Ascii.eqb_spec x c) as [->|Hx]; [discriminate|].
  destruct (star c k s) as [[run' m']|] eqn:E; [|discriminate].
  intros [= <- <-]. apply star_inv in E as (s' & -> & Hk & Hrun).
  exists s'. repeat split; [assumption | constructor; assumption | discriminate].
Qed.

(** A run of characters other than [c] that stops at a [c] is taken whole
    when the rest of the pattern matches from there. *)
Lemma star_run c k run rest m :
  no_char c run -> k (c :: rest) = Some m ->
  star c k (run ++ c :: rest) = Some (run, m).
Proof.
  intros H Hk. induction H as [|x l Hx _ IH]; cbn [star app].
  - now rewrite Ascii.eqb_refl, Hk.
  - apply Ascii.eqb_neq in Hx. now rewrite Hx, IH.
Qed.

Lemma plus_run c k run rest m :
  no_char c run -> run <> [] -> k (c :: rest) = Some m ->
  plus c k (run ++ c :: rest) = Some (run, m).
Proof.
  intros H Hne Hk. destruct H as [|x l Hx Hl]; [congruence|].
  cbn [plus app]. apply Ascii.eqb_neq in Hx. rewrite Hx.
  now rewrite (star_run c k l rest m).
Qed.

(** The text of a match and the text after it make up the input. *)
Lemma match_here_sound p s m :
  match_here p s = Some m -> s = m_text m ++ m_rest m.
Proof.
  revert s m; induction p as [|[c|c|c] p IH]; intros s m; cbn [match_here].
  - now intros [= <-].
  - destruct s as [|x s]; [discriminate|]. destruct (Ascii.eqb x c); [|discriminate].
    destruct (match_here p s) as [m'|] eqn:E; [|discriminate]. intros [= <-].
    cbn. f_equal. now apply IH.
  - destruct (star c (match_here p) s) as [[run m']|] eqn:E; [|discriminate].
    intros [= <-]. apply star_inv in E as (s' & -> & Hk & _).
    cbn. rewrite <- app_assoc. f_equal. now apply IH.
  - destruct (plus c (match_here p) s) as [[run m']|] eqn:E; [|discriminate].
    intros [= <-]. apply plus_inv in E as (s' & -> & Hk & _).
    cbn. rewrite <- app_assoc. f_equal. now apply IH.
Qed.

(** Every captured group is made of characters of the matched text. *)
Lemma match_here_groups (Q : ascii -> Prop) p s m :
  match_here p s = Some m -> Forall Q (m_text m) -> Forall (Forall Q) (m_groups m).
Proof.
  revert s m; induction p as [|[c|c|c] p IH]; intros s m; cbn [match_here].
  - intros [= <-] _. constructor.
  - destruct s as [|x s]; [discriminate|]. destruct (Ascii.eqb x c); [|discriminate].
    destruct (match_here p s) as [m'|] eqn:E; [|discriminate]. intros [= <-].
    cbn. intros H. inversion H; subst. eauto.
  - destruct (star c (match_here p) s) as [[run m']|] eqn:E; [|discriminate].
    intros [= <-]. apply star_inv in E as (s' & -> & Hk & _).
    cbn. intros H. apply Forall_app in H as [_ H]. eauto.
  - destruct (plus c (match_here p) s) as [[run m']|] eqn:E; [|discriminate].
    intros [= <-]. apply plus_inv in E as (s' & -> & Hk & _).
    cbn. intros H. apply Forall_app in H as [H1 H2]. constructor; eauto.
Qed.

(** Literal characters at the head of a pattern. *)
Lemma match_here_chars l p s :
  match_here (map Chr l ++ p) (l ++ s) = option_map (m_skip l) (match_here p s).
Proof.
  induction l as [|x l IH]; cbn [map app match_here].
  - destruct (match_here p s) as [[]|]; reflexivity.
  - rewrite Ascii.eqb_refl, IH. destruct (match_here p s); reflexivity.
Qed.

Lemma match_here_lit x p s :
  match_here (lit x ++ p) (chars x ++ s) = option_map (m_skip (chars x)) (match_here p s).
Proof. apply match_here_chars. Qed.

Lemma match_here_prefix l p s m :
  match_here (map Chr l ++ p) s = Some m -> is_prefix l s = true.
Proof.
  revert s m; induction l as [|x l IH]; intros s m; [reflexivity|].
  cbn [map app match_here is_prefix]. destruct s as [|y s]; [discriminate|].
  destruct (Ascii.eqb_spec y x) as [->|]; [|discriminate].
  destruct (match_here _ s) eqn:E; [|discriminate]. intros _.
  rewrite Ascii.eqb_refl. eauto.
Qed.

Lemma match_here_nonempty c p s m :
  match_here (Chr c :: p) s = Some m -> m_text m <> [].
Proof.
  cbn [match_here]. destruct s as [|x s]; [discriminate|].
  destruct (Ascii.eqb x c); [|discriminate].
  destruct (match_here p s); [|discriminate]. now intros [= <-].
Qed.

(** ** [re.search] *)

Lemma search_sound p s pre m :
  search p s = Some (pre, m) ->
  s = pre ++ m_text m ++ m_rest m /\ match_here p (m_text m ++ m_rest m) = Some m.
Proof.
  revert pre; induction s as [|x s IH]; intros pre; cbn [search].
  - destruct (match_here p []) as [m'|] eqn:E; [|discriminate].
    intros [= <- <-]. rewrite <- (match_here_sound _ _ _ E). now split.
  - destruct (match_here p (x :: s)) as [m'|] eqn:E.
    + intros [= <- <-]. rewrite <- (match_here_sound _ _ _ E). now split.
    + destruct (search p s) as [[pre' m']|] eqn:E'; [|discriminate].
      intros [= <- <-]. destruct (IH _ eq_refl) as [-> H]. now split.
Qed.

(** A word whose characters all differ from [c] cannot run across a [c]. *)
Lemma prefix_straddle w b c rest :
  mem c w = false -> is_prefix w (b ++ c :: rest) = true -> is_prefix w b = true.
Proof.
  revert b; induction w as [|k w IH]; intros b Hc H; [reflexivity|].
  cbn [mem existsb] in Hc. apply orb_false_iff in Hc as [Hk Hc].
  destruct b as [|y b]; cbn [app is_prefix] in *.
  - apply andb_true_iff in H as [H _]. rewrite Ascii.eqb_sym, Hk in H. discriminate.
  - apply andb_true_iff in H as [-> H]. now apply IH.
Qed.

(** The search passes over a text that holds no occurrence of the literal
    head [l] of the pattern, when the first character of [l] occurs only
    once in [l]. *)
Lemma search_past c0 l' p pre rest :
  mem c0 l' = false ->
  contains (c0 :: l') pre = false ->
  search (map Chr (c0 :: l') ++ p) (pre ++ (c0 :: l') ++ rest) =
  option_map (fun pm => (pre ++ fst pm, snd pm))
             (search (map Chr (c0 :: l') ++ p) ((c0 :: l') ++ rest)).
Proof.
  intros Hc. induction pre as [|x pre IH]; intros H.
  - cbn [app]. destruct (search _ _) as [[]|]; reflexivity.
  - cbn [contains] in H. apply orb_false_iff in H as [Hx H].
    change ((x :: pre) ++ (c0 :: l') ++ rest) with (x :: (pre ++ (c0 :: l') ++ rest)).
    cbn [search].
    destruct (match_here _ (x :: pre ++ (c0 :: l') ++ rest)) as [m|] eqn:E.
    + apply match_here_prefix in E. cbn [is_prefix app] in E, Hx.
      apply andb_true_iff in E as [E1 E2]. rewrite E1 in Hx.
      apply prefix_straddle in E2; [|assumption]. cbn in Hx. congruence.
    + rewrite (IH H). destruct (search _ ((c0 :: l') ++ rest)) as [[]|]; reflexivity.
Qed.

(** ** [re.sub] *)

Section ReSub.
Variables (p : regex) (repl : mtch -> str).

Lemma sub_from_skip a rest :
  sub_from p repl (length a) (a ++ rest) = re_sub p repl rest.
Proof. induction a; simpl; [reflexivity | assumption]. Qed.

Lemma re_sub_nomatch x s :
  match_here p (x :: s) = None -> re_sub p repl (x :: s) = x :: re_sub p repl s.
Proof. intros H. unfold re_sub. cbn [sub_from]. now rewrite H. Qed.

Hypothesis Hne : forall s m, match_here p s = Some m -> m_text m <> [].

Lemma re_sub_match s m :
  match_here p s = Some m -> re_sub p repl s = repl m ++ re_sub p repl (m_rest m).
Proof.
  intros H. pose proof (match_here_sound _ _ _ H) as Hs. pose proof (Hne _ _ H) as Hm.
  destruct s as [|x s].
  - destruct (m_text m); [congruence | discriminate].
  - unfold re_sub at 1. cbn [sub_from]. rewrite H.
    destruct (m_text m) as [|y t]; [congruence|].
    injection Hs as -> ->. f_equal. apply sub_from_skip.
Qed.

(** Induction along the scan of [re_sub]. *)
Lemma re_sub_ind (P : list ascii -> Prop) :
  P [] ->
  (forall s m, match_here p s = Some m -> P (m_rest m) -> P s) ->
  (forall x s, match_here p (x :: s) = None -> P s -> P (x :: s)) ->
  forall s : list ascii, P s.
Proof.
  intros Hnil Hm Hn s. remember (length s) as n eqn:Hlen.
  revert s Hlen. induction n as [n IH] using lt_wf_ind. intros s ->.
  destruct s as [|x s]; [assumption|].
  destruct (match_here p (x :: s)) as [m|] eqn:E.
  - apply (Hm _ _ E). apply (IH (length (m_rest m))); [|reflexivity].
    pose proof (match_here_sound _ _ _ E) as Hs. pose proof (Hne _ _ E) as Hm'.
    rewrite Hs, length_app. destruct (m_text m); [congruence | simpl; lia].
  - apply Hn; [assumption|]. apply (IH (length s)); [simpl; lia | reflexivity].
Qed.

(** [re_sub] keeps a property of the characters when every replacement
    does. *)
Lemma re_sub_Forall (Q : ascii -> Prop) :
  (forall s m, match_here p s = Some m -> Forall Q (m_text m) -> Forall Q (repl m)) ->
  forall s, Forall Q s -> Forall Q (re_sub p repl s).
Proof.
  intros Hrepl s. induction s as [|s m E IH|x s E IH] using re_sub_ind; intros H.
  - constructor.
  - rewrite (re_sub_match _ _ E). pose proof (match_here_sound _ _ _ E) as Hs.
    rewrite Hs in H. apply Forall_app in H as [H1 H2].
    apply Forall_app. split; [eapply Hrepl; eassumption | now apply IH].
  - rewrite re_sub_nomatch by assumption. inversion H; subst.
    constructor; [assumption | now apply IH].
Qed.

End ReSub.

(** A text without the literal head of the pattern is left as it is. *)
Lemma re_sub_absent l p' repl s :
  contains l s = false -> re_sub (map Chr l ++ p') repl s = s.
Proof.
  induction s as [|x s IH]; intros H; [reflexivity|].
  cbn [contains] in H. apply orb_false_iff in H as [Hx H].
  rewrite re_sub_nomatch, IH; [reflexivity | assumption |].
  destruct (match_here _ (x :: s)) eqn:E; [|reflexivity].
  apply match_here_prefix in E. congruence.
Qed.

(** Characters that cannot start a match are copied. *)
Lemma re_sub_copy c p' repl pre s :
  no_char c pre ->
  re_sub (Chr c :: p') repl (pre ++ s) = pre ++ re_sub (Chr c :: p') repl s.
Proof.
  induction 1 as [|x l Hx _ IH]; [reflexivity|].
  cbn [app]. rewrite re_sub_nomatch, IH; [reflexivity|].
  cbn [match_here]. apply Ascii.eqb_neq in Hx. now rewrite Hx.
Qed.

(** ** fix_empty_logs.py: the loop *)

Import FixEmptyLogs.

Lemma loop_body_at done line rest :
  loop_body (length done) (done ++ line :: rest) =
  done ++ repair_line (last done) line :: rest.
Proof.
  unfold loop_body, repair_line. rewrite list_lookup_middle by reflexivity.
  destruct (contains empty_log line); [|reflexivity].
  assert (Hins : forall v, <[length done := v]> (done ++ line :: rest) = done ++ v :: rest).
  { intros v. rewrite insert_app_r_alt by lia. now rewrite Nat.sub_diag. }
  destruct (last done) as [prev|] eqn:Hlast.
  - assert (Hpos : (0 <? length done) = true).
    { apply Nat.ltb_lt. destruct done; [discriminate | simpl; lia]. }
    rewrite Hpos. rewrite last_lookup in Hlast.
    assert (Hprev : (done ++ line :: rest) !! (length done - 1) = Some prev).
    { rewrite lookup_app_l by (apply Nat.ltb_lt in Hpos; lia).
      now rewrite Nat.sub_1_r. }
    rewrite Hprev. cbn [message_after].
    destruct (has_success_word prev); [apply Hins|].
    destruct (has_error_word prev); apply Hins.
  - apply last_None in Hlast as ->. apply Hins.
Qed.

Lemma loop_repair rest : forall done,
  loop (length rest) (length done) (done ++ rest) = done ++ repair_after (last done) rest.
Proof.
  induction rest as [|line rest IH]; intros done; [reflexivity|].
  cbn [length loop repair_after]. rewrite loop_body_at.
  specialize (IH (done ++ [repair_line (last done) line])).
  rewrite length_app, last_snoc, <- app_assoc in IH. cbn [length app] in IH.
  rewrite Nat.add_1_r in IH. rewrite <- app_assoc in IH. exact IH.
Qed.

(** The in-place loop computes [repair_after]. *)
Lemma fix_lines_repair lines : fix_lines lines = repair_after None lines.
Proof. apply (loop_repair lines []). Qed.

Lemma repair_after_lookup lines : forall i prev line,
  lines !! i = Some line ->
  repair_after prev lines !! i =
  Some (repair_line (match i with O => prev | S j => repair_after prev lines !! j end) line).
Proof.
  induction lines as [|l lines IH]; intros i prev line H; [discriminate|].
  destruct i as [|j]; cbn [repair_after].
  - injection H as ->. reflexivity.
  - cbn [lookup list_lookup] in H |- *. rewrite (IH _ _ _ H).
    destruct j; reflexivity.
Qed.

(** ** fix_empty_logs.py: words and lines *)

Lemma empty_log_cons : empty_log = "c"%char :: chars "onsole.log()".
Proof. reflexivity. Qed.

Lemma message_after_cons prev : exists new', message_after prev = "c"%char :: new'.
Proof.
  destruct prev as [prev|]; cbn [message_after]; [|eexists; reflexivity].
  destruct (has_success_word prev); [eexists; reflexivity|].
  destruct (has_error_word prev); eexists; reflexivity.
Qed.

Lemma message_after_cases prev :
  message_after prev = log_success \/ message_after prev = log_error \/
  message_after prev = log_processing.
Proof.
  destruct prev as [prev|]; cbn [message_after]; [|auto].
  destruct (has_success_word prev); [auto|]. destruct (has_error_word prev); auto.
Qed.

Lemma message_no_newline prev : no_char nl (message_after prev).
Proof.
  destruct (message_after_cases prev) as [-> | [-> | ->]];
    apply mem_false_iff; reflexivity.
Qed.

(** A word read through [f] that cannot touch an empty call stays on the
    line. *)
Lemma word_kept f w pp line :
  overlaps w (map f empty_log) = false -> mem (f "c"%char) w = false ->
  contains w (map f line) = true -> contains w (map f (repair_line pp line)) = true.
Proof.
  intros Hov Hc H. unfold repair_line. destruct (contains empty_log line); [|assumption].
  rewrite empty_log_cons in *. now apply replace_keeps_word.
Qed.

(** A word read through [f] that none of the three messages can complete is
    not brought onto the line. *)
Lemma word_not_added f w pp line :
  overlaps w (map f log_success) = false -> overlaps w (map f log_error) = false ->
  overlaps w (map f log_processing) = false -> mem (f "c"%char) (tail w) = false ->
  contains w (map f (repair_line pp line)) = true -> contains w (map f line) = true.
Proof.
  intros H1 H2 H3 Hc. unfold repair_line. destruct (contains empty_log line); [|auto].
  rewrite empty_log_cons.
  destruct (message_after_cases pp) as [-> | [-> | ->]];
    apply replace_no_new_word; assumption.
Qed.

Lemma word_kept_plain w pp line :
  overlaps w empty_log = false -> mem "c"%char w = false ->
  contains w line = true -> contains w (repair_line pp line) = true.
Proof.
  pose proof (word_kept (fun c => c) w pp line) as K. now rewrite !map_id in K.
Qed.

Lemma word_not_added_plain w pp line :
  overlaps w log_success = false -> overlaps w log_error = false ->
  overlaps w log_processing = false -> mem "c"%char (tail w) = false ->
  contains w (repair_line pp line) = true -> contains w line = true.
Proof.
  pose proof (word_not_added (fun c => c) w pp line) as K. now rewrite !map_id in K.
Qed.

Lemma success_kept pp line :
  has_success_word line = true -> has_success_word (repair_line pp line) = true.
Proof.
  unfold has_success_word. rewrite !orb_true_iff.
  intros [[H|H]|H]; [left; left | left; right | right];
    (apply word_kept_plain; [reflexivity | reflexivity | assumption]).
Qed.

Lemma error_kept pp line :
  has_error_word line = true -> has_error_word (repair_line pp line) = true.
Proof.
  unfold has_error_word, lower. rewrite !orb_true_iff.
  intros [H|H]; [left | right];
    (apply word_kept; [reflexivity | reflexivity | assumption]).
Qed.

Lemma success_not_added pp line :
  has_success_word line = false -> has_success_word (repair_line pp line) = false.
Proof.
  intros H. destruct (has_success_word (repair_line pp line)) eqn:E; [|reflexivity].
  rewrite <- H. symmetry. revert E. unfold has_success_word. rewrite !orb_true_iff.
  intros [[E|E]|E]; [left; left | left; right | right];
    (eapply word_not_added_plain; [reflexivity .. | eassumption]).
Qed.

(** Once repaired, a line holds no empty call. *)
Lemma repair_line_clears prev line : contains empty_log (repair_line prev line) = false.
Proof.
  unfold repair_line. destruct (contains empty_log line) eqn:E; [|assumption].
  rewrite empty_log_cons.
  destruct (message_after_cases prev) as [-> | [-> | ->]];
    apply replace_clears; reflexivity.
Qed.

Lemma repair_line_absent prev line :
  contains empty_log line = false -> repair_line prev line = line.
Proof. intros H. unfold repair_line. now rewrite H. Qed.

Lemma repair_after_clears lines : forall prev,
  Forall (fun l => contains empty_log l = false) (repair_after prev lines).
Proof.
  induction lines as [|l lines IH]; intros prev; cbn [repair_after]; constructor.
  - apply repair_line_clears.
  - apply IH.
Qed.

Lemma repair_after_absent lines : forall prev,
  Forall (fun l => contains empty_log l = false) lines -> repair_after prev lines = lines.
Proof.
  induction lines as [|l lines IH]; intros prev H; [reflexivity|].
  inversion H; subst. cbn [repair_after].
  rewrite repair_line_absent by assumption. now rewrite IH.
Qed.

Lemma replace_not_nil o old' n new' s :
  s <> [] -> replace (o :: old') (n :: new') s <> [].
Proof.
  destruct s as [|x s]; [congruence|]. intros _.
  destruct (is_prefix (o :: old') (x :: s)) eqn:E.
  - apply is_prefix_spec in E as [r ->]. rewrite replace_match. discriminate.
  - rewrite replace_nomatch by assumption. discriminate.
Qed.

Lemma repair_line_newline prev body :
  no_char nl body ->
  exists body', no_char nl body' /\ repair_line prev (body ++ [nl]) = body' ++ [nl].
Proof.
  intros Hb. unfold repair_line. destruct (contains empty_log (body ++ [nl])); [|eauto].
  exists (replace empty_log (message_after prev) body). rewrite empty_log_cons. split.
  - apply replace_Forall; [apply message_no_newline | assumption].
  - now apply replace_snoc.
Qed.

Lemma repair_line_last prev body :
  body <> [] -> no_char nl body ->
  repair_line prev body <> [] /\ no_char nl (repair_line prev body).
Proof.
  intros Hne Hb. unfold repair_line. destruct (contains empty_log body); [|auto].
  rewrite empty_log_cons. destruct (message_after_cons prev) as [new' Hm]. split.
  - rewrite Hm. now apply replace_not_nil.
  - apply replace_Forall; [apply message_no_newline | assumption].
Qed.

Lemma repair_after_wf lines : lines_wf lines -> forall prev, lines_wf (repair_after prev lines).
Proof.
  induction 1 as [|body Hne Hb|body ls Hb _ IH]; intros prev; cbn [repair_after].
  - constructor.
  - destruct (repair_line_last prev body Hne Hb). now constructor.
  - destruct (repair_line_newline prev body Hb) as (body' & Hb' & ->).
    constructor; [assumption | apply IH].
Qed.

(** The lines of the text written are the repaired lines of the text read. *)
Lemma readlines_transform content :
  readlines (FixEmptyLogs.transform content) = repair_after None (readlines content).
Proof.
  unfold FixEmptyLogs.transform, writelines. rewrite fix_lines_repair.
  apply readlines_concat, repair_after_wf, readlines_wf.
Qed.

Lemma repair_line_count prev line :
  count_char nl (repair_line prev line) = count_char nl line.
Proof.
  unfold repair_line. destruct (contains empty_log line); [|reflexivity].
  rewrite empty_log_cons.
  apply replace_count_char; [reflexivity | apply message_no_newline].
Qed.

Lemma repair_after_count lines : forall prev,
  count_char nl (concat (repair_after prev lines)) = count_char nl (concat lines).
Proof.
  induction lines as [|l lines IH]; intros prev; [reflexivity|].
  cbn [repair_after concat]. now rewrite !count_char_app, repair_line_count, IH.
Qed.



(** ** Matching the patterns of fix_all_syntax.py *)

Lemma match_here_chars_inv l p s m :
  match_here (map Chr l ++ p) s = Some m ->
  exists s' m', s = l ++ s' /\ match_here p s' = Some m' /\ m = m_skip l m'.
Proof.
  intros H. pose proof (match_here_prefix _ _ _ _ H) as Hp.
  apply is_prefix_spec in Hp as [s' ->]. rewrite match_here_chars in H.
  destruct (match_here p s') as [m'|] eqn:E; [|discriminate]. injection H as <-.
  exists s', m'. auto.
Qed.

Lemma match_here_lit_inv x p s m :
  match_here (lit x ++ p) s = Some m ->
  exists s' m', s = chars x ++ s' /\ match_here p s' = Some m' /\ m = m_skip (chars x) m'.
Proof. apply match_here_chars_inv. Qed.

Lemma match_here_group_inv c p s m :
  match_here (Group c :: p) s = Some m ->
  exists run s' m', s = run ++ s' /\ no_char c run /\ run <> [] /\
                    match_here p s' = Some m' /\ m = m_capture run m'.
Proof.
  cbn [match_here]. destruct (plus c (match_here p) s) as [[run m']|] eqn:E; [|discriminate].
  intros [= <-]. apply plus_inv in E as (s' & -> & Hk & Hrun & Hne).
  exists run, s', m'. auto.
Qed.

Lemma match_here_group c p run rest m :
  no_char c run -> run <> [] -> match_here p (c :: rest) = Some m ->
  match_here (Group c :: p) (run ++ c :: rest) = Some (m_capture run m).
Proof.
  intros Hrun Hne Hm. cbn [match_here]. now rewrite (plus_run c _ run rest m).
Qed.

Lemma match_here_lit_end x s :
  match_here (lit x) (chars x ++ s) = Some (Mtch (chars x) [] s).
Proof.
  rewrite <- (app_nil_r (lit x)), match_here_lit.
  cbn [match_here option_map]. unfold m_skip. cbn [m_text m_groups m_rest].
  now rewrite app_nil_r.
Qed.

Lemma match_here_lit_end_inv x s m :
  match_here (lit x) s = Some m ->
  exists rest, m = Mtch (chars x) [] rest /\ s = chars x ++ rest.
Proof.
  rewrite <- (app_nil_r (lit x)). intros H.
  apply match_here_lit_inv in H as (s' & m' & -> & Hm & ->).
  injection Hm as <-. exists s'. unfold m_skip. cbn [m_text m_groups m_rest].
  now rewrite app_nil_r.
Qed.

Import FixAllSyntax.

Lemma match_double L E S :
  L <> [] -> no_char "`"%char L -> E <> [] -> no_char ")"%char E ->
  match_here re_double (double_wrapped L E ++ S) = Some (Mtch (double_wrapped L E) [L; E] S).
Proof.
  intros HL1 HL2 HE1 HE2.
  assert (H2 : match_here (Group ")"%char :: lit ")}`);") (E ++ chars ")}`);" ++ S)
               = Some (m_capture E (Mtch (chars ")}`);") [] S))).
  { exact (match_here_group ")"%char _ E _ _ HE2 HE1 (match_here_lit_end ")}`);" S)). }
  assert (H1 : match_here (lit "`)} ${JSON.stringify(" ++ Group ")"%char :: lit ")}`);")
                 (chars "`)} ${JSON.stringify(" ++ E ++ chars ")}`);" ++ S)
               = Some (m_skip (chars "`)} ${JSON.stringify(")
                         (m_capture E (Mtch (chars ")}`);") [] S)))).
  { rewrite match_here_lit, H2. reflexivity. }
  assert (H0 : match_here (Group "`"%char :: lit "`)} ${JSON.stringify("
                             ++ Group ")"%char :: lit ")}`);")
                 (L ++ chars "`)} ${JSON.stringify(" ++ E ++ chars ")}`);" ++ S)
               = Some (m_capture L (m_skip (chars "`)} ${JSON.stringify(")
                         (m_capture E (Mtch (chars ")}`);") [] S))))).
  { exact (match_here_group "`"%char _ L _ _ HL2 HL1 H1). }
  unfold re_double, double_wrapped. rewrite <- !app_assoc, match_here_lit.
  cbn [app]. rewrite H0. reflexivity.
Qed.

Lemma match_single T S :
  T <> [] -> no_char "`"%char T ->
  match_here re_single (single_wrapped T ++ S) = Some (Mtch (single_wrapped T) [T] S).
Proof.
  intros HT1 HT2.
  assert (H0 : match_here (Group "`"%char :: lit "`)}`);") (T ++ chars "`)}`);" ++ S)
               = Some (m_capture T (Mtch (chars "`)}`);") [] S))).
  { exact (match_here_group "`"%char _ T _ _ HT2 HT1 (match_here_lit_end "`)}`);" S)). }
  unfold re_single, single_wrapped. rewrite <- !app_assoc, match_here_lit.
  cbn [app]. rewrite H0. reflexivity.
Qed.

Lemma match_double_inv s m :
  match_here re_double s = Some m ->
  exists L E, m = Mtch (double_wrapped L E) [L; E] (m_rest m) /\
              s = double_wrapped L E ++ m_rest m.
Proof.
  unfold re_double. intros H.
  apply match_here_lit_inv in H as (s1 & m1 & -> & H & ->). cbn [app] in H.
  apply match_here_group_inv in H as (L & s2 & m2 & -> & _ & _ & H & ->).
  apply match_here_lit_inv in H as (s3 & m3 & -> & H & ->). cbn [app] in H.
  apply match_here_group_inv in H as (E & s4 & m4 & -> & _ & _ & H & ->).
  apply match_here_lit_end_inv in H as (rest & -> & ->).
  exists L, E. unfold double_wrapped, m_skip, m_capture. cbn [m_text m_groups m_rest].
  rewrite <- !app_assoc. split; reflexivity.
Qed.

Lemma match_single_inv s m :
  match_here re_single s = Some m ->
  exists T, m = Mtch (single_wrapped T) [T] (m_rest m) /\ s = single_wrapped T ++ m_rest m.
Proof.
  unfold re_single. intros H.
  apply match_here_lit_inv in H as (s1 & m1 & -> & H & ->). cbn [app] in H.
  apply match_here_group_inv in H as (T & s2 & m2 & -> & _ & _ & H & ->).
  apply match_here_lit_end_inv in H as (rest & -> & ->).
  exists T. unfold single_wrapped, m_skip, m_capture. cbn [m_text m_groups m_rest].
  rewrite <- !app_assoc. split; reflexivity.
Qed.

Lemma contains_weaken a w b s : contains (a ++ w ++ b) s = true -> contains w s = true.
Proof.
  rewrite !contains_spec. intros (x & y & ->). exists (x ++ a), (b ++ y).
  now rewrite <- !app_assoc.
Qed.

(** An occurrence of [w] in [a ++ c :: b], where [c] is not a character of
    [w], lies in [a] or in [b]. *)
Lemma contains_sep_inv w a c b :
  mem c w = false -> contains w (a ++ c :: b) = true ->
  contains w a = true \/ contains w b = true.
Proof.
  intros Hc. induction a as [|x a IH]; cbn [app]; intros H.
  - apply contains_cons_inv in H as [H|H]; [left | now right].
    apply contains_prefix. now apply (prefix_straddle w [] c b).
  - apply contains_cons_inv in H as [H|H].
    + left. apply contains_prefix. now apply (prefix_straddle w (x :: a) c b).
    + destruct (IH H) as [H'|H']; [left; now apply contains_cons | now right].
Qed.

Lemma search_here p s m : match_here p s = Some m -> search p s = Some ([], m).
Proof. intros H. destruct s; cbn [search]; now rewrite H. Qed.

(** ** fix_all_syntax.py: one line *)

Lemma group_Forall (Q : ascii -> Prop) p s m n :
  match_here p s = Some m -> Forall Q s -> Forall Q (group n m).
Proof.
  intros H Hs. pose proof (match_here_sound _ _ _ H) as E. rewrite E in Hs.
  apply Forall_app in Hs as [Ht _].
  pose proof (match_here_groups Q _ _ _ H Ht) as Hg. unfold group.
  generalize (n - 1). induction Hg as [|g gs Hg _ IH]; intros [|k]; cbn [nth]; auto.
Qed.

Lemma search_Forall (Q : ascii -> Prop) p s pre m n :
  search p s = Some (pre, m) -> Forall Q s -> Forall Q (group n m).
Proof.
  intros H Hs. apply search_sound in H as [E H]. rewrite E in Hs.
  apply Forall_app in Hs as [_ Hs]. now apply (group_Forall Q _ _ _ n H).
Qed.

Lemma fix_wrapped_no_newline line : no_char nl line -> no_char nl (fix_wrapped line).
Proof.
  intros H. unfold fix_wrapped.
  destruct (contains _ line); [|assumption].
  destruct (contains _ line).
  - destruct (search re_double line) as [[pre m]|] eqn:E; [|assumption].
    repeat apply Forall_app_2.
    + apply mem_false_iff. reflexivity.
    + now apply (search_Forall _ _ _ _ _ 1 E).
    + apply mem_false_iff. reflexivity.
    + apply (replace_Forall "`"%char []); [constructor|].
      apply (replace_Forall "`"%char (chars ")}")); [constructor|].
      now apply (search_Forall _ _ _ _ _ 2 E).
    + apply mem_false_iff. reflexivity.
  - destruct (search re_single line) as [[pre m]|] eqn:E; [|assumption].
    repeat apply Forall_app_2.
    + apply mem_false_iff. reflexivity.
    + now apply (search_Forall _ _ _ _ _ 1 E).
    + apply mem_false_iff. reflexivity.
Qed.

Lemma re_sub_group_no_newline p' s :
  no_char nl s -> no_char nl (re_sub (Chr "$"%char :: p') (group 1) s).
Proof.
  apply re_sub_Forall.
  - intros s0 m. apply match_here_nonempty.
  - intros s0 m Hm Ht. pose proof (match_here_groups _ _ _ _ Hm Ht) as Hg.
    unfold group. generalize (1 - 1).
    induction Hg as [|g gs Hg _ IH]; intros [|k]; cbn [nth]; auto; constructor.
Qed.

Lemma fix_line_no_newline line : no_char nl line -> no_char nl (fix_line line).
Proof.
  intros H. unfold fix_line.
  apply (re_sub_group_no_newline (lit "{JSON.stringify(" ++ Group ")"%char :: lit ")}")).
  apply (re_sub_group_no_newline (lit "{JSON.stringify(`" ++ Group "`"%char :: lit "`)}")).
  now apply fix_wrapped_no_newline.
Qed.

(** The lines of the text written are the fixed lines of the text read. *)
Lemma split_transform content :
  split nl (FixAllSyntax.transform content) = map fix_line (split nl content).
Proof.
  unfold FixAllSyntax.transform. apply split_join.
  - pose proof (split_not_nil nl content). destruct (split nl content); [congruence|].
    discriminate.
  - pose proof (split_no_char nl content) as H.
    induction H; cbn [map]; constructor; [now apply fix_line_no_newline | assumption].
Qed.

(** A text without the opening of a wrapped fragment goes through both
    catch-all substitutions unchanged. *)
Lemma strip_absent s :
  contains wrap_open s = false ->
  re_sub re_strip_expr (group 1) (re_sub re_strip_literal (group 1) s) = s.
Proof.
  intros H.
  rewrite (re_sub_absent wrap_open (Chr "`"%char :: Group "`"%char :: lit "`)}")) by assumption.
  now rewrite (re_sub_absent wrap_open (Group ")"%char :: lit ")}")).
Qed.

Lemma fix_line_absent line : contains wrap_open line = false -> fix_line line = line.
Proof.
  intros H. unfold fix_line, fix_wrapped.
  destruct (contains (chars "console.log(`${JSON.stringify(") line) eqn:E.
  - apply (contains_weaken (chars "console.log(`") wrap_open []) in E. congruence.
  - now apply strip_absent.
Qed.

(** ** fix_all_syntax.py: the two rebuilding branches *)

Lemma fix_wrapped_double line P m :
  search re_double line = Some (P, m) ->
  exists L E,
    line = P ++ double_wrapped L E ++ m_rest m /\
    m_groups m = [L; E] /\
    fix_wrapped line = indent ++ flat_log (L ++ chars " " ++ strip_ticks E).
Proof.
  intros H. pose proof (search_sound _ _ _ _ H) as [Hline Hm].
  apply match_double_inv in Hm as (L & E & Hm & Htxt).
  rewrite Htxt in Hline. exists L, E. split; [assumption|].
  split; [now rewrite Hm|].
  unfold fix_wrapped. rewrite H.
  assert (H1 : contains (chars "console.log(`${JSON.stringify(") line = true).
  { apply contains_spec. exists P.
    exists ("`"%char :: L ++ chars "`)} ${JSON.stringify(" ++ E ++ chars ")}`);" ++ m_rest m).
    rewrite Hline. unfold double_wrapped. now rewrite <- !app_assoc. }
  assert (H2 : contains (chars ")} ${JSON.stringify(") line = true).
  { apply contains_spec. exists (P ++ chars "console.log(`${JSON.stringify(`" ++ L ++ chars "`").
    exists (E ++ chars ")}`);" ++ m_rest m).
    rewrite Hline. unfold double_wrapped. now rewrite <- !app_assoc. }
  rewrite H1, H2, Hm. unfold group, indent, flat_log, strip_ticks. cbn [nth Nat.sub m_groups].
  now rewrite <- !app_assoc.
Qed.

Lemma fix_wrapped_single line P m :
  contains (chars ")} ${JSON.stringify(") line = false ->
  search re_single line = Some (P, m) ->
  exists T,
    line = P ++ single_wrapped T ++ m_rest m /\
    m_groups m = [T] /\
    fix_wrapped line = indent ++ flat_log T.
Proof.
  intros H2 H. pose proof (search_sound _ _ _ _ H) as [Hline Hm].
  apply match_single_inv in Hm as (T & Hm & Htxt).
  rewrite Htxt in Hline. exists T. split; [assumption|].
  split; [now rewrite Hm|].
  unfold fix_wrapped. rewrite H.
  assert (H1 : contains (chars "console.log(`${JSON.stringify(") line = true).
  { apply contains_spec. exists P. exists ("`"%char :: T ++ chars "`)}`);" ++ m_rest m).
    rewrite Hline. unfold single_wrapped. now rewrite <- !app_assoc. }
  rewrite H1, H2, Hm. unfold group, indent, flat_log. cbn [nth Nat.sub m_groups].
  reflexivity.
Qed.

(** The search reaches a statement that no earlier text of the same opening
    precedes. *)
Lemma search_double P L E S :
  contains (chars "console.log(`${JSON.stringify(`") P = false ->
  L <> [] -> no_char "`"%char L -> E <> [] -> no_char ")"%char E ->
  search re_double (P ++ double_wrapped L E ++ S) =
  Some (P, Mtch (double_wrapped L E) [L; E] S).
Proof.
  intros HP HL1 HL2 HE1 HE2.
  pose proof (match_double L E S HL1 HL2 HE1 HE2) as Hm.
  apply search_here in Hm. revert Hm. unfold double_wrapped at 1 3.
  rewrite <- !app_assoc. intros Hm.
  pose proof (search_past "c"%char (chars "onsole.log(`${JSON.stringify(`")
    (Group "`"%char :: lit "`)} ${JSON.stringify(" ++ Group ")"%char :: lit ")}`);")
    P (L ++ chars "`)} ${JSON.stringify(" ++ E ++ chars ")}`);" ++ S) eq_refl HP) as K.
  etransitivity; [exact K|]. etransitivity; [apply f_equal; exact Hm|].
  cbn [option_map fst snd]. now rewrite app_nil_r.
Qed.

Lemma search_single P T S :
  contains (chars "console.log(`${JSON.stringify(`") P = false ->
  T <> [] -> no_char "`"%char T ->
  search re_single (P ++ single_wrapped T ++ S) = Some (P, Mtch (single_wrapped T) [T] S).
Proof.
  intros HP HT1 HT2.
  pose proof (match_single T S HT1 HT2) as Hm.
  apply search_here in Hm. revert Hm. unfold single_wrapped at 1 3.
  rewrite <- !app_assoc. intros Hm.
  pose proof (search_past "c"%char (chars "onsole.log(`${JSON.stringify(`")
    (Group "`"%char :: lit "`)}`);")
    P (T ++ chars "`)}`);" ++ S) eq_refl HP) as K.
  etransitivity; [exact K|]. etransitivity; [apply f_equal; exact Hm|].
  cbn [option_map fst snd]. now rewrite app_nil_r.
Qed.

(** A rebuilt statement holds the opening of a wrapped fragment only if its
    body does. *)
Lemma flat_log_clean body :
  contains wrap_open body = false -> contains wrap_open (indent ++ flat_log body) = false.
Proof.
  intros H. destruct (contains wrap_open (indent ++ flat_log body)) eqn:E; [|reflexivity].
  change (indent ++ flat_log body)
    with (chars "      console.log(" ++ "`"%char :: body ++ "`"%char :: chars ");") in E.
  apply contains_sep_inv in E as [E|E]; [discriminate E | | reflexivity].
  apply contains_sep_inv in E as [E|E]; [congruence | discriminate E | reflexivity].
Qed.

Lemma body_clean L E :
  contains wrap_open L = false -> contains wrap_open E = false ->
  contains wrap_open (L ++ chars " " ++ E) = false.
Proof.
  intros HL HE. destruct (contains wrap_open (L ++ chars " " ++ E)) eqn:H; [|reflexivity].
  change (L ++ chars " " ++ E) with (L ++ " "%char :: E) in H.
  apply contains_sep_inv in H as [H|H]; [congruence | congruence | reflexivity].
Qed.

Lemma contains_char c w s : contains (c :: w) s = true -> mem c s = true.
Proof.
  induction s as [|x s IH]; intros H.
  - discriminate.
  - apply contains_cons_inv in H as [H|H]; cbn [mem existsb].
    + cbn [is_prefix] in H. apply andb_true_iff in H as [H _]. now rewrite H.
    + unfold mem in IH. rewrite (IH H). apply orb_true_r.
Qed.

Lemma strip_ticks_absent E : no_char "`"%char E -> strip_ticks E = E.
Proof.
  intros H. apply mem_false_iff in H. unfold strip_ticks.
  assert (forall w, contains ("`"%char :: w) E = false) as Hc.
  { intros w. destruct (contains _ E) eqn:C; [|reflexivity].
    apply contains_char in C. congruence. }
  rewrite (replace_absent "`"%char (chars ")}")) by apply Hc.
  now rewrite (replace_absent "`"%char []) by apply Hc.
Qed.

(** ** fix_empty_logs.py: the line written for an empty call *)

(** Line [S i] of the output is line [S i] of the input, repaired after
    line [i] of the output. *)
Lemma transform_lookup_S content i line :
  readlines content !! S i = Some line ->
  readlines (FixEmptyLogs.transform content) !! S i =
  Some (repair_line (readlines (FixEmptyLogs.transform content) !! i) line).
Proof.
  intros H. rewrite readlines_transform. now rewrite (repair_after_lookup _ _ _ _ H).
Qed.

Lemma transform_lookup_0 content line :
  readlines content !! 0 = Some line ->
  readlines (FixEmptyLogs.transform content) !! 0 = Some (repair_line None line).
Proof.
  intros H. rewrite readlines_transform. now rewrite (repair_after_lookup _ _ _ _ H).
Qed.

(** Every output line is the repair of the input line at the same index. *)
Lemma transform_lookup content i line :
  readlines content !! i = Some line ->
  exists pp, readlines (FixEmptyLogs.transform content) !! i = Some (repair_line pp line).
Proof.
  intros H. rewrite readlines_transform. rewrite (repair_after_lookup _ _ _ _ H). eauto.
Qed.

(** * The claims *)

(** C3. In every content where a line holding the empty call
    [console.log()] comes right after a line holding [Found], [Created] or
    [Updated], fix_empty_logs.py writes that line with every empty call
    replaced by [console.log("Operation completed successfully")]. *)
Theorem success_message_after_success_word content i prev_line line :
  readlines content !! i = Some prev_line ->
  readlines content !! S i = Some line ->
  contains empty_log line = true ->
  contains (chars "Found") prev_line = true \/
  contains (chars "Created") prev_line = true \/
  contains (chars "Updated") prev_line = true ->
  readlines (FixEmptyLogs.transform content) !! S i =
  Some (replace empty_log log_success line).
Proof.
  intros Hprev Hline Hcall Hword.
  rewrite (transform_lookup_S _ _ _ Hline).
  destruct (transform_lookup _ _ _ Hprev) as [pp ->].
  unfold repair_line at 1. rewrite Hcall. cbn [message_after].
  rewrite success_kept; [reflexivity|].
  unfold has_success_word. destruct Hword as [-> | [-> | ->]];
    rewrite ?orb_true_r; reflexivity.
Qed.

(** C3, the example of the specification: [console.log();] after
    [console.log("Created record");]. *)
Lemma success_message_example :
  readlines (FixEmptyLogs.transform
               (chars "console.log(" ++ [dquote] ++ chars "Created record" ++ [dquote]
                ++ chars ");" ++ [nl] ++ chars "console.log();")) !! 1 =
  Some (chars "console.log(" ++ [dquote] ++ chars "Operation completed successfully"
        ++ [dquote] ++ chars ");").
Proof.
  apply (success_message_after_success_word _ 0
           (chars "console.log(" ++ [dquote] ++ chars "Created record" ++ [dquote]
            ++ chars ");" ++ [nl])
           (chars "console.log();"));
    [reflexivity | reflexivity | reflexivity | right; left; reflexivity].
Defined.

(** C4, as amended. In every content where a line holding the empty call
    comes right after a line that holds [error] or [fail] in any letter case
    and none of [Found], [Created], [Updated], fix_empty_logs.py writes that
    line with every empty call replaced by [console.log("Error logged")]. *)
Theorem error_message_after_error_word content i prev_line line :
  readlines content !! i = Some prev_line ->
  readlines content !! S i = Some line ->
  contains empty_log line = true ->
  contains (chars "error") (lower prev_line) = true \/
  contains (chars "fail") (lower prev_line) = true ->
  contains (chars "Found") prev_line = false ->
  contains (chars "Created") prev_line = false ->
  contains (chars "Updated") prev_line = false ->
  readlines (FixEmptyLogs.transform content) !! S i =
  Some (replace empty_log log_error line).
Proof.
  intros Hprev Hline Hcall Hword H1 H2 H3.
  rewrite (transform_lookup_S _ _ _ Hline).
  destruct (transform_lookup _ _ _ Hprev) as [pp ->].
  unfold repair_line at 1. rewrite Hcall. cbn [message_after].
  rewrite success_not_added, error_kept; [reflexivity | |].
  - unfold has_error_word. destruct Hword as [-> | ->]; rewrite ?orb_true_r; reflexivity.
  - unfold has_success_word. now rewrite H1, H2, H3.
Qed.

Lemma error_message_example :
  readlines (FixEmptyLogs.transform
               (chars "  throw new Error(e);" ++ [nl] ++ chars "  console.log();" ++ [nl])) !! 1 =
  Some (chars "  console.log(" ++ [dquote] ++ chars "Error logged" ++ [dquote]
        ++ chars ");" ++ [nl]).
Proof.
  apply (error_message_after_error_word _ 0
           (chars "  throw new Error(e);" ++ [nl]) (chars "  console.log();" ++ [nl]));
    [reflexivity | reflexivity | reflexivity | left; reflexivity
    | reflexivity | reflexivity | reflexivity].
Defined.

(** C4 as stated fails: the success words are tested first, so a preceding
    line with both [Found] and [error] gives the success message. *)
Lemma error_message_as_stated_fails :
  ~ (forall content i prev_line line,
       readlines content !! i = Some prev_line ->
       readlines content !! S i = Some line ->
       contains empty_log line = true ->
       contains (chars "error") (lower prev_line) = true \/
       contains (chars "fail") (lower prev_line) = true ->
       exists out, readlines (FixEmptyLogs.transform content) !! S i = Some out /\
                   contains log_error out = true).
Proof.
  intros H.
  destruct (H (chars "// Found error" ++ [nl] ++ chars "console.log();" ++ [nl]) 0
              (chars "// Found error" ++ [nl]) (chars "console.log();" ++ [nl])
              eq_refl eq_refl eq_refl (or_introl eq_refl)) as (out & Hout & Hc).
  vm_compute in Hout. injection Hout as <-. vm_compute in Hc. discriminate.
Qed.

(** C5, as amended. In every content where a line holds the empty call and
    either it is the first line, or the line before it, as the loop has left
    it (its own empty calls already replaced), holds none of the five words,
    fix_empty_logs.py writes that line with every empty call replaced by
    [console.log("Processing...")]. *)
Theorem processing_message_otherwise content i line :
  readlines content !! i = Some line ->
  contains empty_log line = true ->
  i = 0 \/
  (exists j written_prev,
      i = S j /\
      readlines (FixEmptyLogs.transform content) !! j = Some written_prev /\
      contains (chars "Found") written_prev = false /\
      contains (chars "Created") written_prev = false /\
      contains (chars "Updated") written_prev = false /\
      contains (chars "error") (lower written_prev) = false /\
      contains (chars "fail") (lower written_prev) = false) ->
  readlines (FixEmptyLogs.transform content) !! i =
  Some (replace empty_log log_processing line).
Proof.
  intros Hline Hcall [-> | (j & prev & -> & Hprev & H1 & H2 & H3 & H4 & H5)].
  - rewrite (transform_lookup_0 _ _ Hline). unfold repair_line. now rewrite Hcall.
  - rewrite (transform_lookup_S _ _ _ Hline), Hprev.
    unfold repair_line. rewrite Hcall. cbn [message_after].
    unfold has_success_word, has_error_word. now rewrite H1, H2, H3, H4, H5.
Qed.

Lemma processing_message_example :
  readlines (FixEmptyLogs.transform
               (chars "const n = 1;" ++ [nl] ++ chars "console.log();" ++ [nl])) !! 1 =
  Some (chars "console.log(" ++ [dquote] ++ chars "Processing..." ++ [dquote]
        ++ chars ");" ++ [nl]).
Proof.
  apply (processing_message_otherwise _ 1 (chars "console.log();" ++ [nl]));
    [reflexivity | reflexivity |].
  right. exists 0, (chars "const n = 1;" ++ [nl]). repeat split; reflexivity.
Defined.

(** When the line before holds no empty call itself, the loop has left it
    as it was read. *)
Lemma processing_message_plain_prev content j prev_line line :
  readlines content !! j = Some prev_line ->
  readlines content !! S j = Some line ->
  contains empty_log prev_line = false ->
  contains empty_log line = true ->
  has_success_word prev_line = false -> has_error_word prev_line = false ->
  readlines (FixEmptyLogs.transform content) !! S j =
  Some (replace empty_log log_processing line).
Proof.
  intros Hprev Hline Hno Hcall Hs He.
  rewrite (transform_lookup_S _ _ _ Hline).
  destruct (transform_lookup _ _ _ Hprev) as [pp ->].
  rewrite (repair_line_absent pp) by assumption.
  unfold repair_line. rewrite Hcall. cbn [message_after]. now rewrite Hs, He.
Qed.

(** C5 as stated fails: the line before is read from the list the loop is
    rewriting.  After an error line, a first empty call becomes
    [console.log("Error logged")], which holds [error] once lowered, so
    the empty call on the next line gets the error message too, although the
    line before it was read as [console.log()]. *)
Lemma processing_message_as_stated_fails :
  ~ (forall content i prev_line line,
       readlines content !! i = Some prev_line ->
       readlines content !! S i = Some line ->
       contains empty_log line = true ->
       has_success_word prev_line = false -> has_error_word prev_line = false ->
       exists out, readlines (FixEmptyLogs.transform content) !! S i = Some out /\
                   contains log_processing out = true).
Proof.
  intros H.
  destruct (H (chars "// error" ++ [nl] ++ chars "console.log();" ++ [nl]
               ++ chars "console.log();" ++ [nl]) 1
              (chars "console.log();" ++ [nl]) (chars "console.log();" ++ [nl])
              eq_refl eq_refl eq_refl eq_refl eq_refl) as (out & Hout & Hc).
  vm_compute in Hout. injection Hout as <-. vm_compute in Hc. discriminate.
Qed.




(** ** fix_all_syntax.py *)

Lemma transform_line content i line :
  split nl content !! i = Some line ->
  split nl (FixAllSyntax.transform content) !! i = Some (fix_line line).
Proof. intros H. now rewrite split_transform, lookup_map, H. Qed.

(** C1, as amended. fix_all_syntax.py, on a line
    [P console.log(`${JSON.stringify(`L`)} ${JSON.stringify(E)}`); S] where
    [L] is non-empty and free of backticks, [E] is non-empty and free of [)]
    and of backticks, neither holds [${JSON.stringify(], and [P] holds no
    earlier [console.log(`${JSON.stringify(`]: the line written is six spaces
    followed by [console.log(`L E`);], and no [${JSON.stringify(] is left
    on it. *)
Theorem double_wrapped_repaired content i P L E S :
  split nl content !! i = Some (P ++ double_wrapped L E ++ S) ->
  contains (chars "console.log(`${JSON.stringify(`") P = false ->
  L <> [] -> no_char "`"%char L -> contains wrap_open L = false ->
  E <> [] -> no_char ")"%char E -> no_char "`"%char E -> contains wrap_open E = false ->
  split nl (FixAllSyntax.transform content) !! i =
    Some (indent ++ flat_log (L ++ chars " " ++ E)) /\
  contains wrap_open (indent ++ flat_log (L ++ chars " " ++ E)) = false.
Proof.
  intros Hline HP HL1 HL2 HL3 HE1 HE2 HE3 HE4.
  assert (Hclean : contains wrap_open (indent ++ flat_log (L ++ chars " " ++ E)) = false)
    by now apply flat_log_clean, body_clean.
  split; [|assumption].
  refine (eq_trans (transform_line _ _ _ Hline) _). f_equal. unfold fix_line.
  destruct (fix_wrapped_double _ _ _ (search_double P L E S HP HL1 HL2 HE1 HE2))
    as (L' & E' & _ & Hg & ->).
  injection Hg as <- <-. rewrite strip_ticks_absent by assumption.
  now apply strip_absent.
Qed.

(** C1, the example of the specification; the line written starts with six
    spaces. *)
Lemma double_wrapped_example :
  split nl (FixAllSyntax.transform
              (chars "console.log(`${JSON.stringify(`Found user`)} ${JSON.stringify(user.id)}`);"))
    !! 0 = Some (chars "      console.log(`Found user user.id`);").
Proof.
  apply (double_wrapped_repaired
           (chars "console.log(`${JSON.stringify(`Found user`)} ${JSON.stringify(user.id)}`);")
           0 [] (chars "Found user") (chars "user.id") []);
    try reflexivity; try discriminate; apply mem_false_iff; reflexivity.
Defined.

(** C1 as stated fails.
    - fix_json_stringify.py leaves stray backticks on the example of the
      specification.
    - fix_all_syntax.py writes six spaces before the statement, deletes the
      backticks of [E], unwraps a wrapped fragment inside [L], does not
      rebuild the statement when [L] is empty, and rebuilds only the first
      statement of a line. *)
Lemma double_wrapped_as_stated_fails :
  ~ (forall content i L E,
       no_char "`"%char L -> no_char "("%char E -> no_char ")"%char E ->
       split nl content !! i = Some (double_wrapped L E) ->
       exists out, split nl (FixAllSyntax.transform content) !! i = Some out /\
                   contains (flat_log (L ++ chars " " ++ E)) out = true)
  /\ FixJsonStringify.transform
       (chars "console.log(`${JSON.stringify(`Found user`)} ${JSON.stringify(user.id)}`);")
     = chars "console.log(``Found user` user.id`);"
  /\ FixAllSyntax.transform
       (chars "console.log(`${JSON.stringify(`Found user`)} ${JSON.stringify(user.id)}`);")
     <> chars "console.log(`Found user user.id`);"
  /\ FixAllSyntax.transform (double_wrapped (chars "L") (chars "a`b"))
     = chars "      console.log(`L ab`);"
  /\ FixAllSyntax.transform (double_wrapped (chars "${JSON.stringify(x)}") (chars "y"))
     = chars "      console.log(`x y`);"
  /\ FixAllSyntax.transform (double_wrapped [] (chars "x"))
     = chars "console.log(``` x`);"
  /\ FixAllSyntax.transform
       (double_wrapped (chars "A") (chars "a") ++ chars " " ++ double_wrapped (chars "B") (chars "b"))
     = chars "      console.log(`A a`);".
Proof.
  split; [|repeat split; try reflexivity; discriminate].
  intros H.
  destruct (H (double_wrapped (chars "L") (chars "a`b")) 0 (chars "L") (chars "a`b"))
    as (out & Hout & Hc);
    [apply mem_false_iff; reflexivity .. | reflexivity |].
  vm_compute in Hout. injection Hout as <-. vm_compute in Hc. discriminate.
Qed.

(** C2, as amended. fix_all_syntax.py, on a line
    [P console.log(`${JSON.stringify(`T`)}`); S] that holds no
    [)} ${JSON.stringify(], where [T] is non-empty, free of backticks and of
    [${JSON.stringify(], and [P] holds no earlier
    [console.log(`${JSON.stringify(`]: the line written is six spaces
    followed by [console.log(`T`);]. *)
Theorem single_wrapped_repaired content i P T S :
  split nl content !! i = Some (P ++ single_wrapped T ++ S) ->
  contains (chars ")} ${JSON.stringify(") (P ++ single_wrapped T ++ S) = false ->
  contains (chars "console.log(`${JSON.stringify(`") P = false ->
  T <> [] -> no_char "`"%char T -> contains wrap_open T = false ->
  split nl (FixAllSyntax.transform content) !! i = Some (indent ++ flat_log T).
Proof.
  intros Hline Hsep HP HT1 HT2 HT3.
  refine (eq_trans (transform_line _ _ _ Hline) _). f_equal. unfold fix_line.
  destruct (fix_wrapped_single _ _ _ Hsep (search_single P T S HP HT1 HT2))
    as (T' & _ & Hg & ->).
  injection Hg as <-. now apply strip_absent, flat_log_clean.
Qed.

Lemma single_wrapped_example :
  split nl (FixAllSyntax.transform
              (chars "  console.log(`${JSON.stringify(`Server started`)}`); // log")) !! 0 =
  Some (chars "      console.log(`Server started`);").
Proof.
  apply (single_wrapped_repaired
           (chars "  console.log(`${JSON.stringify(`Server started`)}`); // log") 0
           (chars "  ") (chars "Server started") (chars " // log"));
    try reflexivity; try discriminate; apply mem_false_iff; reflexivity.
Defined.

(** C2 as stated fails: a wrapped fragment inside [T] is unwrapped by the
    catch-all substitution, and an empty [T] is not matched by [[^`]+]. *)
Lemma single_wrapped_as_stated_fails :
  ~ (forall content i T,
       no_char "`"%char T ->
       split nl content !! i = Some (single_wrapped T) ->
       exists out, split nl (FixAllSyntax.transform content) !! i = Some out /\
                   contains (flat_log T) out = true)
  /\ FixAllSyntax.transform (single_wrapped (chars "${JSON.stringify(x)}"))
     = chars "      console.log(`x`);"
  /\ FixAllSyntax.transform (single_wrapped []) = chars "console.log(````);".
Proof.
  split; [|split; reflexivity].
  intros H.
  destruct (H (single_wrapped (chars "${JSON.stringify(x)}")) 0 (chars "${JSON.stringify(x)}"))
    as (out & Hout & Hc); [apply mem_false_iff; reflexivity | reflexivity |].
  vm_compute in Hout. injection Hout as <-. vm_compute in Hc. discriminate.
Qed.

(** When either rebuilding branch fires on a line, the branch sets it to six
    spaces followed by [console.log(`body`);], [body] made of the groups
    alone, and [fix_line] returns that statement after the two catch-all
    substitutions, which keep its head. *)
Lemma fix_line_rebuilt line P m :
  search re_double line = Some (P, m) \/
  (contains (chars ")} ${JSON.stringify(") line = false /\
   search re_single line = Some (P, m)) ->
  exists body,
    line = P ++ m_text m ++ m_rest m /\
    (body = group 1 m ++ chars " " ++ strip_ticks (group 2 m) \/ body = group 1 m) /\
    fix_wrapped line = indent ++ flat_log body /\
    fix_line line =
      re_sub re_strip_expr (group 1)
        (re_sub re_strip_literal (group 1) (indent ++ flat_log body)) /\
    is_prefix (indent ++ chars "console.log(`") (fix_line line) = true.
Proof.
  intros Hfire.
  assert (exists body,
             line = P ++ m_text m ++ m_rest m /\
             (body = group 1 m ++ chars " " ++ strip_ticks (group 2 m) \/ body = group 1 m) /\
             fix_wrapped line = indent ++ flat_log body) as (body & Hline & Hbody & Hw).
  { destruct Hfire as [H | [Hsep H]].
    - destruct (fix_wrapped_double _ _ _ H) as (L & E & _ & Hg & Hw).
      exists (L ++ chars " " ++ strip_ticks E). split; [apply (search_sound _ _ _ _ H)|].
      split; [|assumption]. left. unfold group. now rewrite Hg.
    - destruct (fix_wrapped_single _ _ _ Hsep H) as (T & _ & Hg & Hw).
      exists T. split; [apply (search_sound _ _ _ _ H)|].
      split; [|assumption]. right. unfold group. now rewrite Hg. }
  exists body. repeat split; try assumption.
  - unfold fix_line. now rewrite Hw.
  - unfold fix_line. rewrite Hw.
    change (indent ++ flat_log body)
      with (chars "      console.log(`" ++ body ++ chars "`);").
    rewrite (re_sub_copy "$"%char (lit "{JSON.stringify(`" ++ Group "`"%char :: lit "`)}"))
      by (apply mem_false_iff; reflexivity).
    rewrite (re_sub_copy "$"%char (lit "{JSON.stringify(" ++ Group ")"%char :: lit ")}"))
      by (apply mem_false_iff; reflexivity).
    apply is_prefix_app.
Qed.

(** C9. When the double-wrapped or the single-wrapped branch of
    fix_all_syntax.py fires on line [i] of the content, that is, when its
    [re.search] succeeds there, with [P] the text before the match and [m]
    the match: the line read is [P], the matched statement and the text
    after it; the branch sets the line to six spaces followed by
    [console.log(`body`);], where [body] is made of the captured groups
    alone; and line [i] of the text written is that statement after the two
    catch-all substitutions, still starting with the six spaces and
    [console.log(`].  Neither [P] nor the text after the match is kept. *)
Theorem wrapped_repair_replaces_line content i line P m :
  split nl content !! i = Some line ->
  search re_double line = Some (P, m) \/
  (contains (chars ")} ${JSON.stringify(") line = false /\
   search re_single line = Some (P, m)) ->
  exists body written,
    line = P ++ m_text m ++ m_rest m /\
    (body = group 1 m ++ chars " " ++ strip_ticks (group 2 m) \/ body = group 1 m) /\
    fix_wrapped line = indent ++ flat_log body /\
    split nl (FixAllSyntax.transform content) !! i = Some written /\
    written =
      re_sub re_strip_expr (group 1)
        (re_sub re_strip_literal (group 1) (indent ++ flat_log body)) /\
    is_prefix (indent ++ chars "console.log(`") written = true.
Proof.
  intros Hline Hfire.
  destruct (fix_line_rebuilt line P m Hfire) as (body & H1 & H2 & H3 & H4 & H5).
  exists body, (fix_line line). repeat split; try assumption.
  exact (transform_line _ _ _ Hline).
Qed.

Lemma wrapped_repair_example :
  exists body written,
    chars "    if (ok) console.log(`${JSON.stringify(`Saved`)} ${JSON.stringify(row.id)}`); // done"
    = chars "    if (ok) " ++ double_wrapped (chars "Saved") (chars "row.id") ++ chars " // done" /\
    (body = chars "Saved" ++ chars " " ++ strip_ticks (chars "row.id") \/ body = chars "Saved") /\
    fix_wrapped
      (chars "    if (ok) console.log(`${JSON.stringify(`Saved`)} ${JSON.stringify(row.id)}`); // done")
    = indent ++ flat_log body /\
    split nl (FixAllSyntax.transform
                (chars "function save(row) {" ++ [nl]
                 ++ chars "    if (ok) console.log(`${JSON.stringify(`Saved`)} ${JSON.stringify(row.id)}`); // done"
                 ++ [nl] ++ chars "}")) !! 1 = Some written /\
    written =
      re_sub re_strip_expr (group 1)
        (re_sub re_strip_literal (group 1) (indent ++ flat_log body)) /\
    is_prefix (indent ++ chars "console.log(`") written = true.
Proof.
  apply (wrapped_repair_replaces_line
           (chars "function save(row) {" ++ [nl]
            ++ chars "    if (ok) console.log(`${JSON.stringify(`Saved`)} ${JSON.stringify(row.id)}`); // done"
            ++ [nl] ++ chars "}") 1
           (chars "    if (ok) console.log(`${JSON.stringify(`Saved`)} ${JSON.stringify(row.id)}`); // done")
           (chars "    if (ok) ")
           (Mtch (double_wrapped (chars "Saved") (chars "row.id"))
                 [chars "Saved"; chars "row.id"] (chars " // done"))).
  - vm_compute. reflexivity.
  - left. vm_compute. reflexivity.
Defined.


(** ** Whole contents *)

Lemma join_split c s : join [c] (split c s) = s.
Proof.
  induction s as [|x s IH]; [reflexivity|]. cbn [split].
  destruct (Ascii.eqb_spec x c) as [->|Hx].
  - pose proof (split_not_nil c s) as Hne.
    destruct (split c s) as [|l ls]; [congruence|]. cbn [join app] in *. now rewrite IH.
  - destruct (split c s) as [|l ls]; [now rewrite <- IH|].
    destruct ls as [|l2 ls]; cbn [join app] in *; now rewrite IH.
Qed.

Lemma contains_join_inv w sep ls :
  contains w (join sep ls) = false -> Forall (fun l => contains w l = false) ls.
Proof.
  induction ls as [|l ls IH]; intros H; [constructor|].
  destruct ls as [|l2 ls]; [repeat constructor; assumption|].
  cbn [join] in H. constructor.
  - destruct (contains w l) eqn:E; [|reflexivity].
    now rewrite (contains_app_l w l _ E) in H.
  - apply IH. destruct (contains w (join sep (l2 :: ls))) eqn:E; [|reflexivity].
    rewrite app_assoc in H. now rewrite (contains_app_r w _ _ E) in H.
Qed.

Lemma map_fix_line_absent ls :
  Forall (fun l => contains wrap_open l = false) ls -> map fix_line ls = ls.
Proof.
  induction 1 as [|l ls Hl _ IH]; [reflexivity|].
  cbn [map]. now rewrite fix_line_absent, IH.
Qed.

(** fix_all_syntax.py leaves a content without [${JSON.stringify(] as it is. *)
Lemma fix_all_syntax_absent content :
  contains wrap_open content = false -> FixAllSyntax.transform content = content.
Proof.
  intros H. unfold FixAllSyntax.transform. rewrite map_fix_line_absent.
  - apply join_split.
  - apply (contains_join_inv _ [nl]). now rewrite join_split.
Qed.

(** So does fix_json_stringify.py: both of its patterns start with
    [console.log(`${JSON.stringify(]. *)
Lemma fix_json_stringify_absent content :
  contains wrap_open content = false -> FixJsonStringify.transform content = content.
Proof.
  intros H.
  assert (Hc : contains (chars "console.log(`${JSON.stringify(") content = false).
  { destruct (contains (chars "console.log(`${JSON.stringify(") content) eqn:E;
      [|reflexivity].
    apply (contains_weaken (chars "console.log(`") wrap_open []) in E. congruence. }
  unfold FixJsonStringify.transform.
  rewrite (re_sub_absent (chars "console.log(`${JSON.stringify(")
             (NotStar ")"%char :: lit ")}" ++ NotStar "`"%char :: lit "`);")) by assumption.
  now rewrite (re_sub_absent (chars "console.log(`${JSON.stringify(")
                 (Chr "`"%char :: Group "`"%char :: lit "`)} ${JSON.stringify("
                    ++ Group ")"%char :: lit ")`)}`);")).
Qed.

Lemma fix_empty_logs_twice content :
  FixEmptyLogs.transform (FixEmptyLogs.transform content) = FixEmptyLogs.transform content.
Proof.
  unfold FixEmptyLogs.transform at 1. rewrite fix_lines_repair, readlines_transform.
  rewrite repair_after_absent by apply repair_after_clears.
  unfold FixEmptyLogs.transform. now rewrite fix_lines_repair.
Qed.

Lemma fix_all_syntax_line_count content :
  line_count (FixAllSyntax.transform content) = line_count content.
Proof. unfold line_count. now rewrite split_transform, length_map. Qed.

Lemma fix_empty_logs_line_count content :
  line_count (FixEmptyLogs.transform content) = line_count content.
Proof.
  unfold line_count, FixEmptyLogs.transform, writelines.
  rewrite !length_split, fix_lines_repair, repair_after_count.
  now rewrite concat_readlines.
Qed.

(** ** fix_json_stringify.py never adds a newline *)

Lemma match_here_groups_count c p s m :
  match_here p s = Some m ->
  count_char c (concat (m_groups m)) <= count_char c (m_text m).
Proof.
  revert s m; induction p as [|[a|a|a] p IH]; intros s m; cbn [match_here].
  - intros [= <-]. reflexivity.
  - destruct s as [|x s]; [discriminate|]. destruct (Ascii.eqb x a); [|discriminate].
    destruct (match_here p s) as [m'|] eqn:E; [|discriminate]. intros [= <-].
    cbn. specialize (IH _ _ E). lia.
  - destruct (star a (match_here p) s) as [[run m']|] eqn:E; [|discriminate].
    intros [= <-]. apply star_inv in E as (s' & -> & Hk & _).
    cbn. rewrite count_char_app. specialize (IH _ _ Hk). lia.
  - destruct (plus a (match_here p) s) as [[run m']|] eqn:E; [|discriminate].
    intros [= <-]. apply plus_inv in E as (s' & -> & Hk & _).
    cbn. rewrite !count_char_app. specialize (IH _ _ Hk). lia.
Qed.

Lemma groups_count_le c (gs : list str) :
  count_char c (nth 0 gs []) + count_char c (nth 1 gs []) <= count_char c (concat gs).
Proof.
  destruct gs as [|g1 [|g2 gs]]; cbn [nth concat]; rewrite ?count_char_app, ?app_nil_r;
    simpl; lia.
Qed.

Lemma re_sub_count_le c p repl :
  (forall s m, match_here p s = Some m -> m_text m <> []) ->
  (forall s m, match_here p s = Some m ->
               count_char c (repl m) <= count_char c (m_text m)) ->
  forall s, count_char c (re_sub p repl s) <= count_char c s.
Proof.
  intros Hne Hrepl s. induction s as [|s m E IH|x s E IH] using (re_sub_ind p Hne).
  - reflexivity.
  - rewrite (re_sub_match p repl Hne _ _ E), count_char_app.
    specialize (Hrepl _ _ E).
    assert (Hs : count_char c s = count_char c (m_text m) + count_char c (m_rest m)).
    { rewrite <- count_char_app. f_equal. apply (match_here_sound _ _ _ E). }
    lia.
  - rewrite re_sub_nomatch by assumption. simpl. lia.
Qed.

Lemma fix_console_log_count m :
  count_char nl (FixJsonStringify.fix_console_log m) <= count_char nl (m_text m).
Proof.
  unfold FixJsonStringify.fix_console_log.
  etransitivity; [apply re_sub_count_le|]; [| |etransitivity; [apply re_sub_count_le|]];
    [| | | |apply re_sub_count_le].
  - intros s m'. apply (match_here_nonempty "`"%char).
  - intros s m' Hm. pose proof (match_here_groups_count nl _ _ _ Hm) as Hg.
    pose proof (groups_count_le nl (m_groups m')) as Hn. unfold group.
    rewrite !count_char_app. cbn [Nat.sub]. simpl (count_char nl (chars "`")). lia.
  - intros s m'. apply (match_here_nonempty ")"%char).
  - intros s m' _. simpl. lia.
  - intros s m'. apply (match_here_nonempty "$"%char).
  - intros s m' _. simpl. lia.
Qed.

Lemma fix_json_stringify_line_count content :
  line_count (FixJsonStringify.transform content) <= line_count content.
Proof.
  unfold line_count, FixJsonStringify.transform. rewrite !length_split.
  apply le_n_S.
  etransitivity; [apply re_sub_count_le|apply re_sub_count_le].
  - intros s m. apply (match_here_nonempty "c"%char).
  - intros s m Hm. pose proof (match_here_groups_count nl _ _ _ Hm) as Hg.
    pose proof (groups_count_le nl (m_groups m)) as Hn. unfold group.
    rewrite !count_char_app. cbn [Nat.sub].
    simpl (count_char nl (chars "console.log(`")). simpl (count_char nl (chars " ")).
    simpl (count_char nl (chars "`);")). lia.
  - intros s m. apply (match_here_nonempty "c"%char).
  - intros s m _. apply fix_console_log_count.
Qed.

(** C6, as amended. Running fix_empty_logs.py on its own output changes
    nothing.  fix_all_syntax.py and fix_json_stringify.py substitute in a
    single pass; running either again changes nothing once its first output
    holds no [${JSON.stringify(] any more. *)
Theorem second_run_changes_nothing content :
  FixEmptyLogs.transform (FixEmptyLogs.transform content) = FixEmptyLogs.transform content /\
  (contains wrap_open (FixAllSyntax.transform content) = false ->
   FixAllSyntax.transform (FixAllSyntax.transform content) = FixAllSyntax.transform content) /\
  (contains wrap_open (FixJsonStringify.transform content) = false ->
   FixJsonStringify.transform (FixJsonStringify.transform content) =
   FixJsonStringify.transform content).
Proof.
  split; [apply fix_empty_logs_twice|].
  split; [apply fix_all_syntax_absent | apply fix_json_stringify_absent].
Qed.

Lemma second_run_example :
  FixAllSyntax.transform
    (FixAllSyntax.transform (chars "  console.log(`${JSON.stringify(`Server started`)}`);"))
  = FixAllSyntax.transform (chars "  console.log(`${JSON.stringify(`Server started`)}`);").
Proof.
  apply (proj1 (proj2 (second_run_changes_nothing
           (chars "  console.log(`${JSON.stringify(`Server started`)}`);")))).
  vm_compute. reflexivity.
Defined.

(** C6 as stated fails for two of the three scripts: a wrapped fragment
    nested in another is unwrapped one level per run. *)
Lemma second_run_as_stated_fails :
  ~ (forall content,
       FixAllSyntax.transform (FixAllSyntax.transform content) =
       FixAllSyntax.transform content)
  /\ ~ (forall content,
          FixJsonStringify.transform (FixJsonStringify.transform content) =
          FixJsonStringify.transform content)
  /\ FixAllSyntax.transform (chars "${JSON.stringify(${JSON.stringify(x)})}")
     = chars "${JSON.stringify(x)}"
  /\ FixAllSyntax.transform (chars "${JSON.stringify(x)}") = chars "x"
  /\ FixJsonStringify.transform
       (chars "console.log(`${JSON.stringify(${JSON.${JSON.stringify(stringify(x)}))}}`);")
     = chars "console.log(`${JSON.stringify(x)}`);"
  /\ FixJsonStringify.transform (chars "console.log(`${JSON.stringify(x)}`);")
     = chars "console.log(`x`);".
Proof.
  split; [|split; [|repeat split; vm_compute; reflexivity]].
  - intros H. specialize (H (chars "${JSON.stringify(${JSON.stringify(x)})}")).
    vm_compute in H. discriminate.
  - intros H.
    specialize (H (chars "console.log(`${JSON.stringify(${JSON.${JSON.stringify(stringify(x)}))}}`);")).
    vm_compute in H. discriminate.
Qed.

(** C7, as amended. A line that holds neither [${JSON.stringify(] nor
    [console.log()] is written unchanged by fix_all_syntax.py and by
    fix_empty_logs.py.  fix_json_stringify.py matches across lines; it
    leaves the content unchanged when the content holds no
    [${JSON.stringify(]. *)
Theorem unrecognised_line_unchanged content i line :
  contains wrap_open line = false ->
  contains empty_log line = false ->
  (split nl content !! i = Some line ->
   split nl (FixAllSyntax.transform content) !! i = Some line) /\
  (readlines content !! i = Some line ->
   readlines (FixEmptyLogs.transform content) !! i = Some line) /\
  (contains wrap_open content = false -> FixJsonStringify.transform content = content).
Proof.
  intros Hw He. repeat split.
  - intros H. refine (eq_trans (transform_line _ _ _ H) _). now rewrite fix_line_absent.
  - intros H. destruct (transform_lookup _ _ _ H) as [pp ->].
    now rewrite repair_line_absent.
  - apply fix_json_stringify_absent.
Qed.

Lemma unrecognised_line_example :
  split nl (FixAllSyntax.transform
              (chars "console.log(`${JSON.stringify(`a`)}`);" ++ [nl] ++ chars "  return 1;")) !! 1
  = Some (chars "  return 1;").
Proof.
  apply (unrecognised_line_unchanged
           (chars "console.log(`${JSON.stringify(`a`)}`);" ++ [nl] ++ chars "  return 1;")
           1 (chars "  return 1;")); vm_compute; reflexivity.
Defined.

(** C7 as stated fails for fix_json_stringify.py: its pattern runs over
    newlines, and the callback deletes every [)}] of the match, also on a
    line that holds neither [${JSON.stringify(] nor [console.log()]. *)
Lemma unrecognised_line_as_stated_fails :
  ~ (forall content i line,
       split nl content !! i = Some line ->
       contains wrap_open line = false ->
       contains empty_log line = false ->
       split nl (FixJsonStringify.transform content) !! i = Some line)
  /\ FixJsonStringify.transform
       (chars "console.log(`${JSON.stringify(x)}" ++ [nl] ++ chars "foo)}bar" ++ [nl]
        ++ chars "`);")
     = chars "console.log(`x" ++ [nl] ++ chars "foobar" ++ [nl] ++ chars "`);".
Proof.
  split; [|vm_compute; reflexivity].
  intros H.
  specialize (H (chars "console.log(`${JSON.stringify(x)}" ++ [nl] ++ chars "foo)}bar" ++ [nl]
                 ++ chars "`);") 1 (chars "foo)}bar") eq_refl eq_refl eq_refl).
  vm_compute in H. discriminate.
Qed.

(** C8, as amended. fix_all_syntax.py and fix_empty_logs.py write as many
    newline-separated lines as they read.  fix_json_stringify.py never adds a
    line. *)
Theorem line_count_kept content :
  line_count (FixAllSyntax.transform content) = line_count content /\
  line_count (FixEmptyLogs.transform content) = line_count content /\
  line_count (FixJsonStringify.transform content) <= line_count content.
Proof.
  split; [apply fix_all_syntax_line_count|].
  split; [apply fix_empty_logs_line_count | apply fix_json_stringify_line_count].
Qed.

(** C8 as stated fails for fix_json_stringify.py: the last substitution of
    the callback drops whatever stands between [`)}] and the next backtick,
    newlines included. *)
Lemma line_count_as_stated_fails :
  ~ (forall content,
       line_count (FixJsonStringify.transform content) = line_count content)
  /\ FixJsonStringify.transform
       (chars "console.log(`${JSON.stringify(x`)}))}}" ++ [nl] ++ chars "`);")
     = chars "console.log(`x`);".
Proof.
  split; [|vm_compute; reflexivity].
  intros H.
  specialize (H (chars "console.log(`${JSON.stringify(x`)}))}}" ++ [nl] ++ chars "`);")).
  vm_compute in H. discriminate.
Qed.

(** * Further properties of the scripts *)

(** ** fix_empty_logs.py: nothing is left to repair *)

Lemma concat_absent w ls :
  contains w [] = false -> mem nl w = false -> lines_wf ls ->
  Forall (fun l => contains w l = false) ls -> contains w (concat ls) = false.
Proof.
  intros Hw Hnl Hwf. induction Hwf as [|body Hne Hb|body ls Hb _ IH]; intros H.
  - assumption.
  - inversion H; subst. cbn [concat]. now rewrite app_nil_r.
  - inversion H as [|? ? Hl Hls]; subst. cbn [concat].
    destruct (contains w ((body ++ [nl]) ++ concat ls)) eqn:E; [|reflexivity].
    rewrite <- app_assoc in E. cbn [app] in E.
    apply contains_sep_inv in E as [E|E]; [|now rewrite IH in E|assumption].
    now rewrite (contains_app_l w body [nl] E) in Hl.
Qed.

(** X1. The text written by fix_empty_logs.py holds no empty call
    [console.log()] any more, whatever the text read. *)
Theorem no_empty_call_left content :
  contains empty_log (FixEmptyLogs.transform content) = false.
Proof.
  unfold FixEmptyLogs.transform, writelines. rewrite fix_lines_repair.
  apply concat_absent; [reflexivity | reflexivity | |].
  - apply repair_after_wf, readlines_wf.
  - apply repair_after_clears.
Qed.

(** ** fix_all_syntax.py: every line on its own *)

(** X2. fix_all_syntax.py repairs each line on its own: two contents that
    agree on line [i] are written with the same line [i]. *)
Theorem fix_all_syntax_line_local content1 content2 i :
  split nl content1 !! i = split nl content2 !! i ->
  split nl (FixAllSyntax.transform content1) !! i =
  split nl (FixAllSyntax.transform content2) !! i.
Proof.
  intros H.
  refine (eq_trans (f_equal (fun ls => ls !! i) (split_transform content1)) _).
  refine (eq_trans _ (eq_sym (f_equal (fun ls => ls !! i) (split_transform content2)))).
  refine (eq_trans (lookup_map _ _ _) (eq_trans _ (eq_sym (lookup_map _ _ _)))).
  now rewrite H.
Qed.

Lemma fix_all_syntax_line_local_example :
  split nl (FixAllSyntax.transform
              (chars "let a;" ++ [nl] ++ chars "x ${JSON.stringify(y)} z")) !! 1 =
  split nl (FixAllSyntax.transform
              (chars "console.log(`${JSON.stringify(`b`)}`);" ++ [nl]
               ++ chars "x ${JSON.stringify(y)} z" ++ [nl] ++ chars "end")) !! 1.
Proof.
  apply (fix_all_syntax_line_local
           (chars "let a;" ++ [nl] ++ chars "x ${JSON.stringify(y)} z")
           (chars "console.log(`${JSON.stringify(`b`)}`);" ++ [nl]
            ++ chars "x ${JSON.stringify(y)} z" ++ [nl] ++ chars "end") 1).
  vm_compute. reflexivity.
Defined.

(** ** fix_empty_logs.py: the error message runs down consecutive calls *)

Lemma replace_puts_new o old' new s :
  contains (o :: old') s = true ->
  exists a b, replace (o :: old') new s = a ++ new ++ b.
Proof.
  induction s as [|rest IH|x s E IH] using (replace_ind o old'); intros H.
  - discriminate.
  - rewrite replace_match. exists [], (replace (o :: old') new rest). reflexivity.
  - apply contains_cons_inv in H as [H|H]; [congruence|].
    destruct (IH H) as (a & b & Hab). rewrite replace_nomatch by assumption.
    exists (x :: a), b. now rewrite Hab.
Qed.

Lemma error_message_has_error_word line :
  contains empty_log line = true ->
  has_error_word (replace empty_log log_error line) = true.
Proof.
  intros H. rewrite empty_log_cons in *.
  destruct (replace_puts_new _ _ log_error _ H) as (a & b & ->).
  unfold has_error_word, lower. rewrite !map_app.
  assert (contains (chars "error") (map lower_char a ++ map lower_char log_error
                                    ++ map lower_char b) = true) as ->; [|reflexivity].
  apply contains_app_r, contains_app_l. reflexivity.
Qed.

(** X3. In fix_empty_logs.py the error message runs down consecutive empty
    calls: when a line holding an empty call and none of [Found], [Created],
    [Updated] has been written with [console.log("Error logged")], an
    empty call on the next line is written with that message too. *)
Theorem error_message_runs_down content j prev_line line :
  readlines content !! j = Some prev_line ->
  readlines content !! S j = Some line ->
  contains empty_log prev_line = true ->
  contains empty_log line = true ->
  contains (chars "Found") prev_line = false ->
  contains (chars "Created") prev_line = false ->
  contains (chars "Updated") prev_line = false ->
  readlines (FixEmptyLogs.transform content) !! j =
    Some (replace empty_log log_error prev_line) ->
  readlines (FixEmptyLogs.transform content) !! S j =
    Some (replace empty_log log_error line).
Proof.
  intros Hprev Hline Hc1 Hc2 H1 H2 H3 Hout.
  rewrite (transform_lookup_S _ _ _ Hline), Hout.
  unfold repair_line. rewrite Hc2. cbn [message_after].
  rewrite (error_message_has_error_word _ Hc1).
  assert (Hs : has_success_word (repair_line (Some (chars "error")) prev_line) = false).
  { apply success_not_added. unfold has_success_word. now rewrite H1, H2, H3. }
  unfold repair_line in Hs. rewrite Hc1 in Hs.
  change (message_after (Some (chars "error"))) with log_error in Hs.
  now rewrite Hs.
Qed.

Lemma error_message_runs_down_example :
  readlines (FixEmptyLogs.transform
               (chars "  // fetch failed" ++ [nl] ++ chars "  console.log();" ++ [nl]
                ++ chars "  console.log();" ++ [nl])) !! 2 =
  Some (chars "  console.log(" ++ [dquote] ++ chars "Error logged" ++ [dquote]
        ++ chars ");" ++ [nl]).
Proof.
  apply (error_message_runs_down
           (chars "  // fetch failed" ++ [nl] ++ chars "  console.log();" ++ [nl]
            ++ chars "  console.log();" ++ [nl]) 1
           (chars "  console.log();" ++ [nl]) (chars "  console.log();" ++ [nl]));
    vm_compute; reflexivity.
Defined.

(** ** fix_all_syntax.py: the catch-all substitutions *)

(** [re_sub] copies a text that holds no occurrence of the literal head of
    the pattern, up to an occurrence of that head. *)
Lemma re_sub_past c0 l' p repl pre rest :
  mem c0 l' = false ->
  contains (c0 :: l') pre = false ->
  re_sub (map Chr (c0 :: l') ++ p) repl (pre ++ (c0 :: l') ++ rest) =
  pre ++ re_sub (map Chr (c0 :: l') ++ p) repl ((c0 :: l') ++ rest).
Proof.
  intros Hc. induction pre as [|x pre IH]; intros H; [reflexivity|].
  cbn [contains] in H. apply orb_false_iff in H as [Hx H].
  change ((x :: pre) ++ (c0 :: l') ++ rest) with (x :: (pre ++ (c0 :: l') ++ rest)).
  rewrite re_sub_nomatch; [now rewrite (IH H)|].
  destruct (match_here _ (x :: pre ++ (c0 :: l') ++ rest)) as [m|] eqn:E; [|reflexivity].
  apply match_here_prefix in E. cbn [is_prefix app] in E, Hx.
  apply andb_true_iff in E as [E1 E2]. rewrite E1 in Hx.
  apply prefix_straddle in E2; [|assumption]. cbn in Hx. congruence.
Qed.

Lemma match_strip_literal T S :
  T <> [] -> no_char "`"%char T ->
  match_here re_strip_literal (wrapped_literal T ++ S) = Some (Mtch (wrapped_literal T) [T] S).
Proof.
  intros HT1 HT2.
  assert (H0 : match_here (Group "`"%char :: lit "`)}") (T ++ chars "`)}" ++ S)
               = Some (m_capture T (Mtch (chars "`)}") [] S))).
  { exact (match_here_group "`"%char _ T _ _ HT2 HT1 (match_here_lit_end "`)}" S)). }
  unfold re_strip_literal, wrapped_literal, wrap_open.
  change (chars "${JSON.stringify(" ++ chars "`" ++ T ++ chars "`)}")
    with (chars "${JSON.stringify(`" ++ T ++ chars "`)}").
  rewrite <- !app_assoc, match_here_lit. cbn [app]. rewrite H0. reflexivity.
Qed.

Lemma match_strip_expr E S :
  E <> [] -> no_char ")"%char E ->
  match_here re_strip_expr (wrapped_expr E ++ S) = Some (Mtch (wrapped_expr E) [E] S).
Proof.
  intros HE1 HE2.
  assert (H0 : match_here (Group ")"%char :: lit ")}") (E ++ chars ")}" ++ S)
               = Some (m_capture E (Mtch (chars ")}") [] S))).
  { exact (match_here_group ")"%char _ E _ _ HE2 HE1 (match_here_lit_end ")}" S)). }
  unfold re_strip_expr, wrapped_expr, wrap_open.
  rewrite <- !app_assoc, match_here_lit. cbn [app]. rewrite H0. reflexivity.
Qed.

Lemma strip_literal_nonempty s m :
  match_here re_strip_literal s = Some m -> m_text m <> [].
Proof. apply (match_here_nonempty "$"%char). Qed.

Lemma strip_expr_nonempty s m :
  match_here re_strip_expr s = Some m -> m_text m <> [].
Proof. apply (match_here_nonempty "$"%char). Qed.

Lemma contains_app_absent_l w a b : contains w (a ++ b) = false -> contains w a = false.
Proof.
  intros H. destruct (contains w a) eqn:E; [|reflexivity].
  now rewrite (contains_app_l w a b E) in H.
Qed.

Lemma contains_app_absent_r w a b : contains w (a ++ b) = false -> contains w b = false.
Proof.
  intros H. destruct (contains w b) eqn:E; [|reflexivity].
  now rewrite (contains_app_r w a b E) in H.
Qed.

(** X4. The first catch-all substitution of fix_all_syntax.py: on a line
    [P ${JSON.stringify(`T`)} S] that does not hold
    [console.log(`${JSON.stringify(], with [T] non-empty and free of
    backticks and no [${JSON.stringify(] in [P T S], the line written is
    [P T S]: the wrapper is removed in place and the rest of the line,
    indentation included, is kept. *)
Theorem wrapped_literal_unwrapped content i P T S :
  split nl content !! i = Some (P ++ wrapped_literal T ++ S) ->
  contains (chars "console.log(`${JSON.stringify(") (P ++ wrapped_literal T ++ S) = false ->
  T <> [] -> no_char "`"%char T ->
  contains wrap_open (P ++ T ++ S) = false ->
  split nl (FixAllSyntax.transform content) !! i = Some (P ++ T ++ S).
Proof.
  intros Hline Hmark HT1 HT2 Hclean.
  refine (eq_trans (transform_line _ _ _ Hline) _). f_equal.
  unfold fix_line, fix_wrapped. rewrite Hmark.
  pose proof (contains_app_absent_l _ _ _ Hclean) as HP.
  pose proof (contains_app_absent_r _ _ _ (contains_app_absent_r _ _ _ Hclean)) as HS.
  assert (H1 : re_sub re_strip_literal (group 1) (P ++ wrapped_literal T ++ S) = P ++ T ++ S).
  { unfold wrapped_literal at 1. rewrite <- !app_assoc.
    rewrite (re_sub_past "$"%char (chars "{JSON.stringify(")
               (Chr "`"%char :: Group "`"%char :: lit "`)}")) by (reflexivity || assumption).
    f_equal.
    pose proof (match_strip_literal T S HT1 HT2) as Hm.
    unfold wrapped_literal at 1 in Hm. rewrite <- !app_assoc in Hm.
    rewrite (re_sub_match _ _ strip_literal_nonempty _ _ Hm).
    cbn [m_rest]. unfold group. cbn [m_groups nth Nat.sub]. f_equal.
    now apply (re_sub_absent wrap_open (Chr "`"%char :: Group "`"%char :: lit "`)}")). }
  rewrite H1.
  now apply (re_sub_absent wrap_open (Group ")"%char :: lit ")}")).
Qed.

Lemma wrapped_literal_example :
  split nl (FixAllSyntax.transform
              (chars "  const s = `id ${JSON.stringify(`none`)}`; // x")) !! 0 =
  Some (chars "  const s = `id none`; // x").
Proof.
  apply (wrapped_literal_unwrapped
           (chars "  const s = `id ${JSON.stringify(`none`)}`; // x") 0
           (chars "  const s = `id ") (chars "none") (chars "`; // x"));
    try (vm_compute; reflexivity); try discriminate.
  apply mem_false_iff. reflexivity.
Defined.

Lemma wrapped_expr_tail_clean E S :
  contains wrap_open E = false -> contains wrap_open S = false ->
  contains wrap_open (chars "{JSON.stringify(" ++ E ++ chars ")}" ++ S) = false.
Proof.
  intros HE HS.
  destruct (contains wrap_open (chars "{JSON.stringify(" ++ E ++ chars ")}" ++ S)) eqn:H;
    [|reflexivity].
  apply contains_app_inv in H as [H|H]; [discriminate H|].
  change (E ++ chars ")}" ++ S) with (E ++ ")"%char :: "}"%char :: S) in H.
  apply contains_sep_inv in H as [H|H]; [congruence | | reflexivity].
  apply contains_cons_inv in H as [H|H]; [discriminate H | congruence].
Qed.

Lemma search_absent l p s : contains l s = false -> search (map Chr l ++ p) s = None.
Proof.
  induction s as [|x s IH]; intros H; cbn [search].
  - destruct (match_here _ []) eqn:E; [|reflexivity].
    apply match_here_prefix in E. apply contains_prefix in E. congruence.
  - cbn [contains] in H. apply orb_false_iff in H as [Hx H].
    destruct (match_here _ (x :: s)) eqn:E.
    + apply match_here_prefix in E. congruence.
    + now rewrite (IH H).
Qed.

(** [P ${JSON.stringify( R] holds [${JSON.stringify(] at one place only when
    [P] holds none and none starts later. *)
Lemma wrap_open_unique P R : forall a b,
  contains wrap_open P = false ->
  contains wrap_open (chars "{JSON.stringify(" ++ R) = false ->
  a ++ wrap_open ++ b = P ++ wrap_open ++ R -> a = P /\ b = R.
Proof.
  induction P as [|p P IH]; intros a b HP HR Heq.
  - destruct a as [|x a].
    + split; [reflexivity|]. exact (app_inv_head wrap_open b R Heq).
    + exfalso.
      change ([] ++ wrap_open ++ R) with ("$"%char :: chars "{JSON.stringify(" ++ R) in Heq.
      cbn [app] in Heq. injection Heq as _ Heq.
      assert (contains wrap_open (chars "{JSON.stringify(" ++ R) = true); [|congruence].
      apply contains_spec. exists a, b. now symmetry.
  - destruct a as [|x a].
    + exfalso. cbn [app] in Heq.
      assert (Hp : is_prefix wrap_open (p :: P ++ wrap_open ++ R) = true)
        by (apply is_prefix_spec; exists b; now symmetry).
      change wrap_open with ("$"%char :: chars "{JSON.stringify(") in Hp at 1.
      change (p :: P ++ wrap_open ++ R)
        with (p :: P ++ "$"%char :: chars "{JSON.stringify(" ++ R) in Hp.
      cbn [is_prefix] in Hp. apply andb_true_iff in Hp as [Hp1 Hp2].
      apply prefix_straddle in Hp2; [|reflexivity].
      assert (contains wrap_open (p :: P) = true); [|congruence].
      apply contains_prefix.
      change wrap_open with ("$"%char :: chars "{JSON.stringify(").
      cbn [is_prefix]. now rewrite Hp1, Hp2.
    + cbn [app] in Heq. injection Heq as -> Heq.
      cbn [contains] in HP. apply orb_false_iff in HP as [_ HP].
      destruct (IH _ _ HP HR Heq) as [-> ->]. now split.
Qed.

(** Neither rebuilding pattern matches on a line whose only
    [${JSON.stringify(] is not followed by a backtick. *)
Lemma fix_wrapped_plain P R :
  contains wrap_open P = false ->
  contains wrap_open (chars "{JSON.stringify(" ++ R) = false ->
  is_prefix (chars "`") R = false ->
  fix_wrapped (P ++ wrap_open ++ R) = P ++ wrap_open ++ R.
Proof.
  intros HP HR Hhead.
  assert (Hno : contains (chars "console.log(`${JSON.stringify(`") (P ++ wrap_open ++ R) = false).
  { destruct (contains (chars "console.log(`${JSON.stringify(`") (P ++ wrap_open ++ R)) eqn:E;
      [|reflexivity].
    apply contains_spec in E as (a & b & E).
    assert (E' : (a ++ chars "console.log(`") ++ wrap_open ++ "`"%char :: b
                 = P ++ wrap_open ++ R) by (rewrite E, <- app_assoc; reflexivity).
    apply wrap_open_unique in E' as [_ <-]; [discriminate Hhead | assumption | assumption]. }
  assert (Hd : search re_double (P ++ wrap_open ++ R) = None).
  { exact (search_absent (chars "console.log(`${JSON.stringify(`")
             (Group "`"%char :: lit "`)} ${JSON.stringify(" ++ Group ")"%char :: lit ")}`);")
             _ Hno). }
  assert (Hs : search re_single (P ++ wrap_open ++ R) = None).
  { exact (search_absent (chars "console.log(`${JSON.stringify(`")
             (Group "`"%char :: lit "`)}`);") _ Hno). }
  unfold fix_wrapped. rewrite Hd, Hs.
  destruct (contains (chars "console.log(`${JSON.stringify(") (P ++ wrap_open ++ R));
    [|reflexivity].
  destruct (contains (chars ")} ${JSON.stringify(") (P ++ wrap_open ++ R)); reflexivity.
Qed.

(** X5. The second catch-all substitution of fix_all_syntax.py: on a line
    [P ${JSON.stringify(E)} S], with [E] non-empty, free of [)] and not
    starting with a backtick, and no [${JSON.stringify(] in [P], [E] or [S],
    the line written is [P E S]: the wrapper is removed in place, also inside
    a [console.log] call, and the rest of the line, indentation included, is
    kept. *)
Theorem wrapped_expr_unwrapped content i P E S :
  split nl content !! i = Some (P ++ wrapped_expr E ++ S) ->
  E <> [] -> no_char ")"%char E -> is_prefix (chars "`") E = false ->
  contains wrap_open P = false -> contains wrap_open E = false ->
  contains wrap_open S = false ->
  split nl (FixAllSyntax.transform content) !! i = Some (P ++ E ++ S).
Proof.
  intros Hline HE1 HE2 HE3 HP HE HS.
  refine (eq_trans (transform_line _ _ _ Hline) _). f_equal.
  assert (Hplain : fix_wrapped (P ++ wrapped_expr E ++ S) = P ++ wrapped_expr E ++ S).
  { unfold wrapped_expr. rewrite <- !app_assoc. apply fix_wrapped_plain.
    - assumption.
    - now apply wrapped_expr_tail_clean.
    - destruct E as [|e E']; [congruence | exact HE3]. }
  unfold fix_line. rewrite Hplain.
  assert (H1 : re_sub re_strip_literal (group 1) (P ++ wrapped_expr E ++ S)
               = P ++ wrapped_expr E ++ S).
  { unfold wrapped_expr. rewrite <- !app_assoc.
    rewrite (re_sub_past "$"%char (chars "{JSON.stringify(")
               (Chr "`"%char :: Group "`"%char :: lit "`)}")) by (reflexivity || assumption).
    f_equal.
    change (wrap_open ++ E ++ chars ")}" ++ S)
      with ("$"%char :: chars "{JSON.stringify(" ++ E ++ chars ")}" ++ S).
    cbn [app]. rewrite re_sub_nomatch.
    - f_equal.
      apply (re_sub_absent wrap_open (Chr "`"%char :: Group "`"%char :: lit "`)}")).
      now apply wrapped_expr_tail_clean.
    - assert (K : match_here
                    (lit "${JSON.stringify(" ++ Chr "`"%char :: Group "`"%char :: lit "`)}")
                    (chars "${JSON.stringify(" ++ E ++ chars ")}" ++ S) = None).
      { rewrite match_here_lit. destruct E as [|e E']; [congruence|].
        cbn [is_prefix chars list_ascii_of_string] in HE3.
        rewrite andb_true_r, Ascii.eqb_sym in HE3.
        cbn [app match_here]. now rewrite HE3. }
      exact K. }
  rewrite H1. unfold wrapped_expr. rewrite <- !app_assoc.
  rewrite (re_sub_past "$"%char (chars "{JSON.stringify(")
             (Group ")"%char :: lit ")}")) by (reflexivity || assumption).
  f_equal.
  pose proof (match_strip_expr E S HE1 HE2) as Hm.
  unfold wrapped_expr in Hm. rewrite <- !app_assoc in Hm.
  rewrite (re_sub_match _ _ strip_expr_nonempty _ _ Hm).
  cbn [m_rest]. unfold group. cbn [m_groups nth Nat.sub]. f_equal.
  now apply (re_sub_absent wrap_open (Group ")"%char :: lit ")}")).
Qed.

Lemma wrapped_expr_example :
  split nl (FixAllSyntax.transform
              (chars "  console.log(`${JSON.stringify(user.id)} ok`);")) !! 0 =
  Some (chars "  console.log(`user.id ok`);").
Proof.
  apply (wrapped_expr_unwrapped
           (chars "  console.log(`${JSON.stringify(user.id)} ok`);") 0
           (chars "  console.log(`") (chars "user.id") (chars " ok`);"));
    try (vm_compute; reflexivity); try discriminate.
  apply mem_false_iff. reflexivity.
Defined.

(** ** fix_all_syntax.py: the backticks of a rebuilt line *)

Lemma replace_char_deleted c s : no_char c (replace [c] [] s).
Proof.
  induction s as [|rest IH|x s E IH] using (replace_ind c []).
  - constructor.
  - now rewrite replace_match.
  - rewrite replace_nomatch by assumption. constructor; [|assumption].
    cbn [is_prefix] in E. rewrite andb_true_r in E.
    apply Ascii.eqb_neq in E. congruence.
Qed.

Lemma strip_ticks_no_tick E : no_char "`"%char (strip_ticks E).
Proof. unfold strip_ticks. apply (replace_char_deleted "`"%char). Qed.

Lemma match_double_first_group s m :
  match_here re_double s = Some m -> no_char "`"%char (group 1 m).
Proof.
  unfold re_double. intros H.
  apply match_here_lit_inv in H as (s1 & m1 & -> & H & ->). cbn [app] in H.
  apply match_here_group_inv in H as (L & s2 & m2 & -> & HL & _ & H & ->).
  exact HL.
Qed.

Lemma match_single_first_group s m :
  match_here re_single s = Some m -> no_char "`"%char (group 1 m).
Proof.
  unfold re_single. intros H.
  apply match_here_lit_inv in H as (s1 & m1 & -> & H & ->). cbn [app] in H.
  apply match_here_group_inv in H as (L & s2 & m2 & -> & HL & _ & H & ->).
  exact HL.
Qed.

Lemma flat_log_ticks body :
  no_char "`"%char body -> count_char "`"%char (indent ++ flat_log body) = 2.
Proof.
  intros H. unfold indent, flat_log. rewrite !count_char_app.
  rewrite (count_char_none _ body H). reflexivity.
Qed.

Lemma match_strip_literal_ticks s m :
  match_here re_strip_literal s = Some m -> 2 <= count_char "`"%char s.
Proof.
  unfold re_strip_literal. intros H.
  apply match_here_lit_inv in H as (s1 & m1 & -> & H & ->). cbn [app] in H.
  apply match_here_group_inv in H as (L & s2 & m2 & -> & _ & _ & H & ->).
  apply match_here_lit_end_inv in H as (rest & -> & ->).
  rewrite !count_char_app.
  change (count_char "`"%char (chars "${JSON.stringify(`")) with 1.
  change (count_char "`"%char (chars "`)}")) with 1. lia.
Qed.

(** A text with at most one backtick has no wrapped literal to unwrap. *)
Lemma strip_literal_few_ticks s :
  count_char "`"%char s <= 1 -> re_sub re_strip_literal (group 1) s = s.
Proof.
  induction s as [|x s IH]; intros H; [reflexivity|].
  rewrite re_sub_nomatch.
  - f_equal. apply IH. cbn [count_char] in H. lia.
  - destruct (match_here re_strip_literal (x :: s)) as [m|] eqn:E; [|reflexivity].
    apply match_strip_literal_ticks in E. lia.
Qed.

Lemma re_sub_count_eq c p repl :
  (forall s m, match_here p s = Some m -> m_text m <> []) ->
  (forall s m, match_here p s = Some m ->
               count_char c (repl m) = count_char c (m_text m)) ->
  forall s, count_char c (re_sub p repl s) = count_char c s.
Proof.
  intros Hne Hrepl s. induction s as [|s m E IH|x s E IH] using (re_sub_ind p Hne).
  - reflexivity.
  - rewrite (re_sub_match p repl Hne _ _ E), count_char_app.
    specialize (Hrepl _ _ E).
    assert (Hs : count_char c s = count_char c (m_text m) + count_char c (m_rest m)).
    { rewrite <- count_char_app. f_equal. apply (match_here_sound _ _ _ E). }
    lia.
  - rewrite re_sub_nomatch by assumption. simpl. now rewrite IH.
Qed.

Lemma strip_expr_keeps_ticks s :
  count_char "`"%char (re_sub re_strip_expr (group 1) s) = count_char "`"%char s.
Proof.
  apply re_sub_count_eq; [apply strip_expr_nonempty|].
  intros s0 m H. unfold re_strip_expr in H.
  apply match_here_lit_inv in H as (s1 & m1 & -> & H & ->). cbn [app] in H.
  apply match_here_group_inv in H as (E & s2 & m2 & -> & _ & _ & H & ->).
  apply match_here_lit_end_inv in H as (rest & -> & ->).
  unfold group, m_skip, m_capture. cbn [m_text m_groups nth Nat.sub].
  rewrite !count_char_app.
  change (count_char "`"%char (chars "${JSON.stringify(")) with 0.
  change (count_char "`"%char (chars ")}")) with 0. lia.
Qed.

(** When either rebuilding branch fires on a line, [fix_line] returns a line
    with exactly two backticks. *)
Lemma fix_line_two_backticks line P m :
  search re_double line = Some (P, m) \/
  (contains (chars ")} ${JSON.stringify(") line = false /\
   search re_single line = Some (P, m)) ->
  count_char "`"%char (fix_line line) = 2.
Proof.
  intros Hfire.
  assert (exists body, no_char "`"%char body /\ fix_wrapped line = indent ++ flat_log body)
    as (body & Hbody & Hw).
  { destruct Hfire as [H | [Hsep H]].
    - destruct (fix_wrapped_double _ _ _ H) as (L & E & _ & Hg & Hw).
      exists (L ++ chars " " ++ strip_ticks E). split; [|assumption].
      pose proof (match_double_first_group _ _ (proj2 (search_sound _ _ _ _ H))) as HL.
      unfold group in HL. rewrite Hg in HL. cbn [nth Nat.sub] in HL.
      repeat apply Forall_app_2; [assumption | | apply strip_ticks_no_tick].
      apply mem_false_iff. reflexivity.
    - destruct (fix_wrapped_single _ _ _ Hsep H) as (T & _ & Hg & Hw).
      exists T. split; [|assumption].
      pose proof (match_single_first_group _ _ (proj2 (search_sound _ _ _ _ H))) as HT.
      unfold group in HT. rewrite Hg in HT. exact HT. }
  unfold fix_line. rewrite Hw, strip_expr_keeps_ticks.
  change (indent ++ flat_log body)
    with (chars "      console.log(`" ++ body ++ chars "`);").
  rewrite (re_sub_copy "$"%char (lit "{JSON.stringify(`" ++ Group "`"%char :: lit "`)}"))
    by (apply mem_false_iff; reflexivity).
  change (Chr "$"%char :: lit "{JSON.stringify(`" ++ Group "`"%char :: lit "`)}")
    with re_strip_literal.
  rewrite strip_literal_few_ticks.
  - apply (flat_log_ticks body Hbody).
  - rewrite count_char_app, (count_char_none _ body Hbody). reflexivity.
Qed.

(** X6. When the double-wrapped or the single-wrapped branch of
    fix_all_syntax.py fires on line [i] of the content, line [i] of the
    text written holds exactly two backticks, those of the rebuilt template
    string: the captured literal has none, the captured expression has lost
    its own, and the catch-all substitutions neither find a wrapped literal
    nor touch a backtick. *)
Theorem rebuilt_line_has_two_backticks content i line P m :
  split nl content !! i = Some line ->
  search re_double line = Some (P, m) \/
  (contains (chars ")} ${JSON.stringify(") line = false /\
   search re_single line = Some (P, m)) ->
  exists written,
    split nl (FixAllSyntax.transform content) !! i = Some written /\
    count_char "`"%char written = 2.
Proof.
  intros Hline Hfire. exists (fix_line line). split.
  - exact (transform_line _ _ _ Hline).
  - exact (fix_line_two_backticks line P m Hfire).
Qed.

Lemma rebuilt_line_two_backticks_example :
  exists written,
    split nl (FixAllSyntax.transform
                (chars "start();" ++ [nl]
                 ++ chars "  console.log(`${JSON.stringify(`Got`)} ${JSON.stringify(`a` + b)}`); // x"))
      !! 1 = Some written /\
    count_char "`"%char written = 2.
Proof.
  apply (rebuilt_line_has_two_backticks
           (chars "start();" ++ [nl]
            ++ chars "  console.log(`${JSON.stringify(`Got`)} ${JSON.stringify(`a` + b)}`); // x")
           1
           (chars "  console.log(`${JSON.stringify(`Got`)} ${JSON.stringify(`a` + b)}`); // x")
           (chars "  ")
           (Mtch (double_wrapped (chars "Got") (chars "`a` + b"))
                 [chars "Got"; chars "`a` + b"] (chars " // x"))).
  - vm_compute. reflexivity.
  - left. vm_compute. reflexivity.
Defined.


(** ** fix_json_stringify.py only deletes *)

Lemma match_here_star_inv c p s m :
  match_here (NotStar c :: p) s = Some m ->
  exists run s' m', s = run ++ s' /\ no_char c run /\
                    match_here p s' = Some m' /\ m = m_skip run m'.
Proof.
  cbn [match_here]. destruct (star c (match_here p) s) as [[run m']|] eqn:E; [|discriminate].
  intros [= <-]. apply star_inv in E as (s' & -> & Hk & Hrun).
  exists run, s', m'. auto.
Qed.

Lemma re_sub_sublist p repl :
  (forall s m, match_here p s = Some m -> m_text m <> []) ->
  (forall s m, match_here p s = Some m -> repl m `sublist_of` m_text m) ->
  forall s, re_sub p repl s `sublist_of` s.
Proof.
  intros Hne Hrepl s. induction s as [|s m E IH|x s E IH] using (re_sub_ind p Hne).
  - constructor.
  - rewrite (re_sub_match p repl Hne _ _ E).
    pose proof (match_here_sound _ _ _ E) as Hs.
    apply (eq_rect_r (fun t => _ `sublist_of` t)
             (sublist_app _ _ _ _ (Hrepl s m E) IH) Hs).
  - rewrite re_sub_nomatch by assumption. now apply sublist_skip.
Qed.

Ltac closed_sublist :=
  vm_compute; repeat first [apply sublist_nil | apply sublist_skip | apply sublist_cons].

Lemma remaining_sublist s m :
  match_here FixJsonStringify.re_remaining s = Some m ->
  (chars "`" ++ group 1 m ++ chars "`") `sublist_of` m_text m.
Proof.
  unfold FixJsonStringify.re_remaining. intros H.
  apply match_here_lit_inv in H as (s1 & m1 & -> & H & ->). cbn [app] in H.
  apply match_here_group_inv in H as (X & s2 & m2 & -> & _ & _ & H & ->).
  apply match_here_lit_inv in H as (s3 & m3 & -> & H & ->). cbn [app] in H.
  apply match_here_star_inv in H as (Y & s4 & m4 & -> & _ & H & ->).
  apply match_here_lit_end_inv in H as (rest & -> & ->).
  unfold group, m_skip, m_capture. cbn [m_text m_groups nth Nat.sub].
  apply sublist_app; [reflexivity|]. apply sublist_app; [reflexivity|].
  apply sublist_inserts_l, sublist_inserts_l. reflexivity.
Qed.

Lemma specific_sublist s m :
  match_here FixJsonStringify.re_specific s = Some m ->
  (chars "console.log(`" ++ group 1 m ++ chars " " ++ group 2 m ++ chars "`);")
    `sublist_of` m_text m.
Proof.
  unfold FixJsonStringify.re_specific. intros H.
  apply match_here_lit_inv in H as (s1 & m1 & -> & H & ->). cbn [app] in H.
  apply match_here_group_inv in H as (L & s2 & m2 & -> & _ & _ & H & ->).
  apply match_here_lit_inv in H as (s3 & m3 & -> & H & ->). cbn [app] in H.
  apply match_here_group_inv in H as (E & s4 & m4 & -> & _ & _ & H & ->).
  apply match_here_lit_end_inv in H as (rest & -> & ->).
  unfold group, m_skip, m_capture. cbn [m_text m_groups nth Nat.sub].
  apply sublist_app; [closed_sublist|]. apply sublist_app; [reflexivity|].
  apply sublist_app; [closed_sublist|]. apply sublist_app; [reflexivity|].
  closed_sublist.
Qed.

Lemma fix_console_log_sublist m :
  FixJsonStringify.fix_console_log m `sublist_of` m_text m.
Proof.
  unfold FixJsonStringify.fix_console_log.
  etransitivity; [apply re_sub_sublist|]; [| |etransitivity; [apply re_sub_sublist|]];
    [| | | |apply re_sub_sublist].
  - intros s m'. apply (match_here_nonempty "`"%char).
  - intros s m'. apply remaining_sublist.
  - intros s m'. apply (match_here_nonempty ")"%char).
  - intros s m' _. apply sublist_nil_l.
  - intros s m'. apply (match_here_nonempty "$"%char).
  - intros s m' _. apply sublist_nil_l.
Qed.

(** X7. fix_json_stringify.py only deletes: the text written is obtained
    from the text read by removing characters, none is added, changed or
    moved; in particular it is never longer. *)
Theorem fix_json_stringify_only_deletes content :
  FixJsonStringify.transform content `sublist_of` content /\
  length (FixJsonStringify.transform content) <= length content.
Proof.
  assert (H : FixJsonStringify.transform content `sublist_of` content).
  { unfold FixJsonStringify.transform.
    etransitivity; [apply re_sub_sublist|apply re_sub_sublist].
    - intros s m. apply (match_here_nonempty "c"%char).
    - intros s m. apply specific_sublist.
    - intros s m. apply (match_here_nonempty "c"%char).
    - intros s m _. apply fix_console_log_sublist. }
  split; [assumption | now apply sublist_length].
Qed.

(** ** fix_json_stringify.py on the two wrapped statements *)

Lemma mem_app c a b : mem c (a ++ b) = mem c a || mem c b.
Proof. unfold mem. apply existsb_app. Qed.

Lemma match_here_has_char c p : forall s m,
  In (Chr c) p -> match_here p s = Some m -> mem c (m_text m) = true.
Proof.
  induction p as [|[a|a|a] p IH]; intros s m Hin; cbn [match_here].
  - destruct Hin.
  - destruct s as [|x s]; [discriminate|].
    destruct (Ascii.eqb_spec x a) as [->|]; [|discriminate].
    destruct (match_here p s) as [m'|] eqn:E; [|discriminate]. intros [= <-].
    cbn [m_cons m_text mem existsb]. destruct Hin as [[= ->]|Hin].
    + now rewrite Ascii.eqb_refl.
    + fold (mem c (m_text m')). rewrite (IH _ _ Hin E). apply orb_true_r.
  - destruct Hin as [Hin|Hin]; [discriminate|].
    destruct (star a (match_here p) s) as [[run m']|] eqn:E; [|discriminate].
    intros [= <-]. apply star_inv in E as (s' & -> & Hk & _).
    cbn [m_skip m_text fst snd]. rewrite mem_app, (IH _ _ Hin Hk). apply orb_true_r.
  - destruct Hin as [Hin|Hin]; [discriminate|].
    destruct (plus a (match_here p) s) as [[run m']|] eqn:E; [|discriminate].
    intros [= <-]. apply plus_inv in E as (s' & -> & Hk & _).
    cbn [m_capture m_text fst snd]. rewrite mem_app, (IH _ _ Hin Hk). apply orb_true_r.
Qed.

(** A pattern with a literal character that the text lacks matches
    nowhere. *)
Lemma re_sub_missing_char c p repl s :
  In (Chr c) p -> mem c s = false -> re_sub p repl s = s.
Proof.
  intros Hin. induction s as [|x s IH]; intros H; [reflexivity|].
  rewrite re_sub_nomatch.
  - f_equal. apply IH. cbn [mem existsb] in H. now apply orb_false_iff in H as [_ H].
  - destruct (match_here p (x :: s)) as [m|] eqn:E; [|reflexivity].
    pose proof (match_here_has_char _ _ _ _ Hin E) as Hm.
    rewrite (match_here_sound _ _ _ E), mem_app, Hm in H. discriminate.
Qed.

Lemma re_sub_no_head c p repl s :
  no_char c s -> re_sub (Chr c :: p) repl s = s.
Proof.
  intros H. rewrite <- (app_nil_r s) at 1. rewrite re_sub_copy by assumption.
  apply app_nil_r.
Qed.

(** Deleting a literal: the text before its first character is copied and
    the occurrence is dropped. *)
Lemma delete_literal c l pre rest :
  no_char c pre ->
  re_sub (map Chr (c :: l)) (fun _ => []) (pre ++ (c :: l) ++ rest) =
  pre ++ re_sub (map Chr (c :: l)) (fun _ => []) rest.
Proof.
  intros Hpre. cbn [map]. rewrite re_sub_copy by assumption. f_equal.
  assert (Hm : match_here (map Chr (c :: l)) ((c :: l) ++ rest) = Some (Mtch (c :: l) [] rest)).
  { rewrite <- (app_nil_r (map Chr (c :: l))), match_here_chars.
    cbn [match_here option_map]. unfold m_skip. cbn [m_text m_groups m_rest].
    now rewrite app_nil_r. }
  apply (re_sub_match (map Chr (c :: l)) (fun _ => []) (match_here_nonempty c (map Chr l)) _ _ Hm).
Qed.

Lemma match_here_star c p run rest m :
  no_char c run -> match_here p (c :: rest) = Some m ->
  match_here (NotStar c :: p) (run ++ c :: rest) = Some (m_skip run m).
Proof.
  intros Hrun Hm. cbn [match_here]. now rewrite (star_run c _ run rest m).
Qed.

Lemma pattern_nonempty s m :
  match_here FixJsonStringify.pattern s = Some m -> m_text m <> [].
Proof. apply (match_here_nonempty "c"%char). Qed.

Lemma fix_console_log_single T :
  no_char "$"%char T -> no_char ")"%char T -> no_char "}"%char T ->
  FixJsonStringify.fix_console_log (Mtch (single_wrapped T) [] []) =
  chars "console.log(``" ++ T ++ chars "``);".
Proof.
  intros H1 H2 H3. unfold FixJsonStringify.fix_console_log. cbn [m_text].
  assert (E1 : re_sub (lit "${JSON.stringify(") (fun _ => []) (single_wrapped T)
               = chars "console.log(``" ++ T ++ chars "`)}`);").
  { assert (single_wrapped T
            = chars "console.log(`" ++ chars "${JSON.stringify("
              ++ "`"%char :: T ++ chars "`)}`);") as -> by reflexivity.
    rewrite (delete_literal "$"%char (chars "{JSON.stringify(")) by (apply mem_false_iff; reflexivity).
    cbn [map]. rewrite (re_sub_no_head "$"%char); [reflexivity|].
    constructor; [discriminate|]. apply Forall_app_2; [assumption|].
    apply mem_false_iff. reflexivity. }
  rewrite E1. clear E1.
  assert (E2 : re_sub (lit ")}") (fun _ => []) (chars "console.log(``" ++ T ++ chars "`)}`);")
               = chars "console.log(``" ++ T ++ chars "``);").
  { assert (chars "console.log(``" ++ T ++ chars "`)}`);"
            = (chars "console.log(``" ++ T ++ chars "`") ++ chars ")}" ++ chars "`);") as ->
      by now rewrite <- !app_assoc.
    rewrite (delete_literal ")"%char (chars "}")).
    - assert (re_sub (map Chr (")"%char :: chars "}")) (fun _ => []) (chars "`);")
              = chars "`);") as -> by (vm_compute; reflexivity).
      now rewrite <- !app_assoc.
    - repeat apply Forall_app_2; try assumption; apply mem_false_iff; reflexivity. }
  rewrite E2. clear E2.
  apply (re_sub_missing_char "}"%char).
  - unfold FixJsonStringify.re_remaining. cbn. tauto.
  - apply mem_false_iff. repeat apply Forall_app_2; try assumption;
      apply mem_false_iff; reflexivity.
Qed.

(** X8. fix_json_stringify.py does not flatten the single-wrapped
    statement: for a text [T] without [$], [)] and [}], the content
    [console.log(`${JSON.stringify(`T`)}`);] is written as
    [console.log(``T``);], with the backticks of the wrapped literal left
    next to those of the template string. *)
Theorem fix_json_stringify_single_wrapped T :
  no_char "$"%char T -> no_char ")"%char T -> no_char "}"%char T ->
  FixJsonStringify.transform (single_wrapped T) =
  chars "console.log(``" ++ T ++ chars "``);".
Proof.
  intros H1 H2 H3. unfold FixJsonStringify.transform.
  assert (Hm : match_here FixJsonStringify.pattern (single_wrapped T)
               = Some (Mtch (single_wrapped T) [] [])).
  { assert (K1 : match_here (NotStar ")"%char :: lit ")}" ++ NotStar "`"%char :: lit "`);")
                   (("`"%char :: T ++ chars "`") ++ ")"%char :: chars "}`);")
                 = Some (m_skip ("`"%char :: T ++ chars "`") (Mtch (chars ")}`);") [] []))).
    { apply match_here_star; [|vm_compute; reflexivity].
      constructor; [discriminate|]. apply Forall_app_2; [assumption|].
      apply mem_false_iff. reflexivity. }
    assert (single_wrapped T
            = chars "console.log(`${JSON.stringify("
              ++ ("`"%char :: T ++ chars "`") ++ ")"%char :: chars "}`);") as Hs.
    { unfold single_wrapped. cbn [app]. now rewrite <- !app_assoc. }
    rewrite Hs at 1.
    change FixJsonStringify.pattern
      with (lit "console.log(`${JSON.stringify("
            ++ NotStar ")"%char :: lit ")}" ++ NotStar "`"%char :: lit "`);").
    rewrite match_here_lit, K1. cbn [option_map]. unfold m_skip. cbn [m_text m_groups m_rest].
    now rewrite Hs. }
  rewrite (re_sub_match _ _ pattern_nonempty _ _ Hm). cbn [m_rest].
  change (re_sub FixJsonStringify.pattern FixJsonStringify.fix_console_log []) with (@nil ascii).
  rewrite app_nil_r, fix_console_log_single by assumption.
  apply (re_sub_missing_char "$"%char).
  - unfold FixJsonStringify.re_specific. cbn. tauto.
  - apply mem_false_iff. repeat apply Forall_app_2; try assumption;
      apply mem_false_iff; reflexivity.
Qed.

Lemma fix_json_stringify_single_example :
  FixJsonStringify.transform (chars "console.log(`${JSON.stringify(`Server started`)}`);")
  = chars "console.log(``Server started``);".
Proof.
  apply (fix_json_stringify_single_wrapped (chars "Server started"));
    apply mem_false_iff; reflexivity.
Defined.

Lemma fix_console_log_double L E :
  no_char "$"%char L -> no_char ")"%char L -> no_char "}"%char L ->
  no_char "$"%char E -> no_char ")"%char E -> no_char "}"%char E ->
  FixJsonStringify.fix_console_log (Mtch (double_wrapped L E) [] []) =
  chars "console.log(``" ++ L ++ chars "` " ++ E ++ chars "`);".
Proof.
  intros L1 L2 L3 E1 E2 E3. unfold FixJsonStringify.fix_console_log. cbn [m_text].
  assert (S1 : re_sub (lit "${JSON.stringify(") (fun _ => []) (double_wrapped L E)
               = chars "console.log(``" ++ L ++ chars "`)} " ++ E ++ chars ")}`);").
  { assert (double_wrapped L E
            = chars "console.log(`" ++ chars "${JSON.stringify("
              ++ ("`"%char :: L ++ chars "`)} ") ++ chars "${JSON.stringify("
              ++ E ++ chars ")}`);") as ->.
    { unfold double_wrapped. cbn [app]. now rewrite <- !app_assoc. }
    rewrite (delete_literal "$"%char (chars "{JSON.stringify(")) by (apply mem_false_iff; reflexivity).
    rewrite (delete_literal "$"%char (chars "{JSON.stringify(")).
    - cbn [map]. rewrite (re_sub_no_head "$"%char).
      + cbn [app]. now rewrite <- !app_assoc.
      + apply Forall_app_2; [assumption | apply mem_false_iff; reflexivity].
    - constructor; [discriminate|]. apply Forall_app_2; [assumption|].
      apply mem_false_iff. reflexivity. }
  rewrite S1. clear S1.
  assert (S2 : re_sub (lit ")}") (fun _ => [])
                 (chars "console.log(``" ++ L ++ chars "`)} " ++ E ++ chars ")}`);")
               = chars "console.log(``" ++ L ++ chars "` " ++ E ++ chars "`);").
  { assert (chars "console.log(``" ++ L ++ chars "`)} " ++ E ++ chars ")}`);"
            = (chars "console.log(``" ++ L ++ chars "`") ++ chars ")}"
              ++ (chars " " ++ E) ++ chars ")}" ++ chars "`);") as ->
      by now rewrite <- !app_assoc.
    rewrite (delete_literal ")"%char (chars "}")).
    - rewrite (delete_literal ")"%char (chars "}")).
      + assert (re_sub (map Chr (")"%char :: chars "}")) (fun _ => []) (chars "`);")
                = chars "`);") as -> by (vm_compute; reflexivity).
        now rewrite <- !app_assoc.
      + apply Forall_app_2; [apply mem_false_iff; reflexivity | assumption].
    - repeat apply Forall_app_2; try assumption; apply mem_false_iff; reflexivity. }
  rewrite S2. clear S2.
  apply (re_sub_missing_char "}"%char).
  - unfold FixJsonStringify.re_remaining. cbn. tauto.
  - apply mem_false_iff. repeat apply Forall_app_2; try assumption;
      apply mem_false_iff; reflexivity.
Qed.

(** X9. fix_json_stringify.py does not flatten the double-wrapped statement
    either: for texts [L] and [E] without [$], [)] and [}], [E] without
    backticks, the content
    [console.log(`${JSON.stringify(`L`)} ${JSON.stringify(E)}`);] is written
    as [console.log(``L` E`);]: both wrappers are deleted and the backticks
    of the wrapped literal stay. *)
Theorem fix_json_stringify_double_wrapped L E :
  no_char "$"%char L -> no_char ")"%char L -> no_char "}"%char L ->
  no_char "$"%char E -> no_char ")"%char E -> no_char "}"%char E ->
  no_char "`"%char E ->
  FixJsonStringify.transform (double_wrapped L E) =
  chars "console.log(``" ++ L ++ chars "` " ++ E ++ chars "`);".
Proof.
  intros L1 L2 L3 E1 E2 E3 E4. unfold FixJsonStringify.transform.
  assert (Hm : match_here FixJsonStringify.pattern (double_wrapped L E)
               = Some (Mtch (double_wrapped L E) [] [])).
  { assert (K0 : match_here (NotStar "`"%char :: lit "`);")
                   ((chars " ${JSON.stringify(" ++ E ++ chars ")}") ++ "`"%char :: chars ");")
                 = Some (m_skip (chars " ${JSON.stringify(" ++ E ++ chars ")}")
                           (Mtch (chars "`);") [] []))).
    { apply match_here_star; [|vm_compute; reflexivity].
      repeat apply Forall_app_2; try assumption; apply mem_false_iff; reflexivity. }
    assert (K1 : match_here (lit ")}" ++ NotStar "`"%char :: lit "`);")
                   (chars ")}" ++ (chars " ${JSON.stringify(" ++ E ++ chars ")}")
                    ++ "`"%char :: chars ");")
                 = Some (m_skip (chars ")}")
                           (m_skip (chars " ${JSON.stringify(" ++ E ++ chars ")}")
                              (Mtch (chars "`);") [] [])))).
    { rewrite match_here_lit, K0. reflexivity. }
    assert (K2 : match_here (NotStar ")"%char :: lit ")}" ++ NotStar "`"%char :: lit "`);")
                   (("`"%char :: L ++ chars "`") ++ ")"%char :: chars "}"
                    ++ (chars " ${JSON.stringify(" ++ E ++ chars ")}")
                    ++ "`"%char :: chars ");")
                 = Some (m_skip ("`"%char :: L ++ chars "`")
                           (m_skip (chars ")}")
                              (m_skip (chars " ${JSON.stringify(" ++ E ++ chars ")}")
                                 (Mtch (chars "`);") [] []))))).
    { apply match_here_star; [|exact K1].
      constructor; [discriminate|]. apply Forall_app_2; [assumption|].
      apply mem_false_iff. reflexivity. }
    assert (double_wrapped L E
            = chars "console.log(`${JSON.stringify("
              ++ ("`"%char :: L ++ chars "`") ++ ")"%char :: chars "}"
              ++ (chars " ${JSON.stringify(" ++ E ++ chars ")}")
              ++ "`"%char :: chars ");") as Hs.
    { unfold double_wrapped. cbn [app]. now rewrite <- !app_assoc. }
    rewrite Hs at 1.
    change FixJsonStringify.pattern
      with (lit "console.log(`${JSON.stringify("
            ++ NotStar ")"%char :: lit ")}" ++ NotStar "`"%char :: lit "`);").
    rewrite match_here_lit, K2. cbn [option_map]. unfold m_skip. cbn [m_text m_groups m_rest].
    f_equal. f_equal. rewrite Hs. cbn [app]. now rewrite <- !app_assoc. }
  rewrite (re_sub_match _ _ pattern_nonempty _ _ Hm). cbn [m_rest].
  change (re_sub FixJsonStringify.pattern FixJsonStringify.fix_console_log []) with (@nil ascii).
  rewrite app_nil_r, fix_console_log_double by assumption.
  apply (re_sub_missing_char "$"%char).
  - unfold FixJsonStringify.re_specific. cbn. tauto.
  - apply mem_false_iff. repeat apply Forall_app_2; try assumption;
      apply mem_false_iff; reflexivity.
Qed.

Lemma fix_json_stringify_double_example :
  FixJsonStringify.transform
    (chars "console.log(`${JSON.stringify(`Found user`)} ${JSON.stringify(user.id)}`);")
  = chars "console.log(``Found user` user.id`);".
Proof.
  apply (fix_json_stringify_double_wrapped (chars "Found user") (chars "user.id"));
    apply mem_false_iff; reflexivity.
Defined.
